(** * A shallow embedding of [inst/support/dogo.py]

    [dogo.py] parses a Gene Ontology OBO file ([parse_obo]), normalises
    a few tags ([parse_synonym_tag], the [def] clean-up in [build]),
    classifies the stanzas into active and obsolete terms, collects the
    direct parent edges of each ontology partition and computes their
    transitive closure ([transitive_closure]).

    Strings are [String.string] (ASCII); a Python [str] method or regular
    expression is written out character by character.  A Python dict is an
    association list in insertion order, a Python set whose contents are
    only tested for membership is a list, and the iteration order of a
    Python set is a parameter [ord] of the development (see [Closure]). *)

From Stdlib Require Import String Ascii List Bool Arith Lia Relations
  Permutation ZArith.
Import ListNotations.
Open Scope string_scope.
Open Scope list_scope.

(* ------------------------------------------------------------------ *)
(** ** Characters and small string functions *)

(** Python's [str.isspace] / the [\s] class of [re] on ASCII characters:
    [\t \n \v \f \r], the separators [\x1c]-[\x1f] and the space. *)
Definition is_space (c : ascii) : bool :=
  (let n := nat_of_ascii c in
  ((9 <=? n) && (n <=? 13)) || ((28 <=? n) && (n <=? 32)))%nat.

Definition nl : ascii := ascii_of_nat 10.
Definition dq : ascii := ascii_of_nat 34.

Definition chr (c : ascii) : string := String c EmptyString.

(** [s.lstrip()] on whitespace. *)
Fixpoint lstrip_ws (s : string) : string :=
  match s with
  | EmptyString => EmptyString
  | String c s' => if is_space c then lstrip_ws s' else s
  end.

Definition string_rev (s : string) : string :=
  string_of_list_ascii (rev (list_ascii_of_string s)).

(** [s.strip()] (no argument: whitespace on both ends). *)
Definition py_strip (s : string) : string :=
  string_rev (lstrip_ws (string_rev (lstrip_ws s))).

(** [s.lstrip(dq)]: every leading double-quote character [dq]. *)
Fixpoint lstrip_dq (s : string) : string :=
  match s with
  | EmptyString => EmptyString
  | String c s' => if Ascii.eqb c dq then lstrip_dq s' else s
  end.

(** [s.rstrip("\n")]: every trailing newline. *)
Fixpoint lstrip_nl (s : string) : string :=
  match s with
  | EmptyString => EmptyString
  | String c s' => if Ascii.eqb c nl then lstrip_nl s' else s
  end.

Definition rstrip_nl (s : string) : string :=
  string_rev (lstrip_nl (string_rev s)).

(** [s.startswith(p)] and [s.endswith(p)]. *)
Definition startswith (s p : string) : bool := String.prefix p s.
Definition endswith (s p : string) : bool :=
  String.prefix (string_rev p) (string_rev s).

(** [s.split()] with no argument: the maximal runs of non-whitespace. *)
Fixpoint split_aux (s : string) (cur : string) : list string :=
  match s with
  | EmptyString =>
      match cur with EmptyString => [] | _ => [string_rev cur] end
  | String c s' =>
      if is_space c then
        match cur with
        | EmptyString => split_aux s' EmptyString
        | _ => string_rev cur :: split_aux s' EmptyString
        end
      else split_aux s' (String c cur)
  end.

Definition py_split (s : string) : list string := split_aux s EmptyString.

(** Membership in a list of strings ([x in s] for a Python set or list). *)
Definition mem (x : string) (s : list string) : bool :=
  existsb (String.eqb x) s.


(* ------------------------------------------------------------------ *)
(** ** [transitive_closure] *)

(** A direct-edge dict [{parent: [child, ...]}] in insertion order. *)
Definition edges := list (string * list string).

(** [s.add(x)] on a set kept in insertion order. *)
Definition set_add (x : string) (s : list string) : list string :=
  if mem x s then s else s ++ [x].

(** [children[k].add(v)] on a [defaultdict(set)]. *)
Fixpoint dd_set_add (k v : string) (m : list (string * list string))
  : list (string * list string) :=
  match m with
  | [] => [(k, [v])]
  | (k', s) :: m' =>
      if String.eqb k k' then (k', set_add v s) :: m'
      else (k', s) :: dd_set_add k v m'
  end.

(** [m.get(k, [])]. *)
Fixpoint dd_get (m : list (string * list string)) (k : string) : list string :=
  match m with
  | [] => []
  | (k', s) :: m' => if String.eqb k k' then s else dd_get m' k
  end.

Section Closure.

(** [ord l] is the order in which Python iterates over a set whose
    elements, in insertion order, are [l]; it is some permutation. *)
Variable ord : list string -> list string.

(** The first loop of [transitive_closure]:
    [for parent, ch_list in direct_edges.items(): all_nodes.add(parent);
     for ch in ch_list: children[parent].add(ch); all_nodes.add(ch)]. *)
Definition build_children (d : edges)
  : list (string * list string) * list string :=
  fold_left
    (fun '(ch, nodes) '(parent, ch_list) =>
       fold_left (fun '(ch, nodes) c => (dd_set_add parent c ch, set_add c nodes))
         ch_list (ch, set_add parent nodes))
    d ([], []).

(** The frontier loop for one [ancestor].  The Python list [queue] is kept
    reversed, so that [queue.pop()] takes the head and
    [queue.extend(xs)] puts [rev xs] in front.  [fuel] bounds the number
    of iterations; [None] means it ran out. *)
Fixpoint walk (fuel : nat) (children : list (string * list string))
  (ancestor : string) (visited : list string) (queue : list string)
  (pairs : list (string * string)) : option (list (string * string)) :=
  match fuel with
  | O => None
  | S fuel' =>
      match queue with
      | [] => Some pairs
      | node :: queue' =>
          if mem node visited then walk fuel' children ancestor visited queue' pairs
          else walk fuel' children ancestor (set_add node visited)
                 (rev (ord (dd_get children node)) ++ queue')
                 (pairs ++ [(ancestor, node)])
      end
  end.

(** [for ancestor in all_nodes: ...]. *)
Fixpoint over_ancestors (fuel : nat) (children : list (string * list string))
  (ancestors : list string) (pairs : list (string * string))
  : option (list (string * string)) :=
  match ancestors with
  | [] => Some pairs
  | ancestor :: rest =>
      match walk fuel children ancestor [] (rev (ord (dd_get children ancestor))) pairs with
      | Some pairs' => over_ancestors fuel children rest pairs'
      | None => None
      end
  end.

(** The iteration bound of one frontier loop: [1 + N * (N + 1)] for [N]
    nodes (proved sufficient in [walk_some]). *)
Definition walk_fuel (nodes : list string) : nat :=
  S (length nodes * S (length nodes)).

Definition transitive_closure_opt (d : edges) : option (list (string * string)) :=
  let '(children, all_nodes) := build_children d in
  over_ancestors (walk_fuel all_nodes) children (ord all_nodes) [].

Definition transitive_closure (d : edges) : list (string * string) :=
  match transitive_closure_opt d with
  | Some pairs => pairs
  | None => []
  end.

End Closure.

(** The hypothesis on [ord]: iterating over a set enumerates its elements. *)
Definition ord_spec (ord : list string -> list string) : Prop :=
  forall l, NoDup l -> Permutation (ord l) l.

(** The direct-edge relation of [d], and reachability through one or
    more edges. *)
Definition edge (d : edges) (p c : string) : Prop :=
  exists l, In (p, l) d /\ In c l.

Definition reach (d : edges) : string -> string -> Prop := clos_trans _ (edge d).


(* ------------------------------------------------------------------ *)
(** ** [parse_obo] *)

(** A stanza value: a string, or a list for the tags of [multi]. *)
Inductive tagval := Single (v : string) | Multi (vs : list string).

(** A stanza: the dict [tag -> value] in insertion order. *)
Definition stanza := list (string * tagval).

Definition multi : list string :=
  ["synonym"; "is_a"; "relationship"; "alt_id"; "consider"; "replaced_by";
   "subset"; "xref"; "property_value"].

Fixpoint st_lookup (st : stanza) (k : string) : option tagval :=
  match st with
  | [] => None
  | (k', v) :: st' => if String.eqb k k' then Some v else st_lookup st' k
  end.

(** [stanza[k] = v]: overwritten in place, or added at the end. *)
Fixpoint st_set (st : stanza) (k : string) (v : tagval) : stanza :=
  match st with
  | [] => [(k, v)]
  | (k', v') :: st' => if String.eqb k k' then (k', v) :: st' else (k', v') :: st_set st' k v
  end.

(** [stanza[k].append(v)] on a [defaultdict(list)].  A tag of [multi]
    only ever holds a list (see [store]), so the [Single] case does not
    arise. *)
Definition st_append (st : stanza) (k v : string) : stanza :=
  match st_lookup st k with
  | Some (Multi vs) => st_set st k (Multi (vs ++ [v]))
  | None => st_set st k (Multi [v])
  | Some (Single _) => st
  end.

(** [if tag in multi: stanza[tag].append(value) else: stanza[tag] = value]. *)
Definition store (st : stanza) (tag value : string) : stanza :=
  if mem tag multi then st_append st tag value else st_set st tag (Single value).

(** [line.partition(": ")] when [": " in line]: the text before the first
    separator and the text after it. *)
Fixpoint partition_sep (s : string) : option (string * string) :=
  match s with
  | EmptyString => None
  | String c s' =>
      match s' with
      | EmptyString => None
      | String c2 s'' =>
          if Ascii.eqb c ":" && Ascii.eqb c2 " " then Some (EmptyString, s'')
          else match partition_sep s' with
               | Some (a, b) => Some (String c a, b)
               | None => None
               end
      end
  end.

(** [.*$] after the [!]: [.] stops at a newline and [$] matches at the end
    or before a final newline; the unmatched tail is returned. *)
Fixpoint dotstar_end (r : string) : option string :=
  match r with
  | EmptyString => Some EmptyString
  | String c r' =>
      if Ascii.eqb c nl then
        match r' with EmptyString => Some (chr nl) | _ => None end
      else dotstar_end r'
  end.

(** [\s+!.*$] matched at the start of [s]: [\s+] takes the whole run of
    whitespace ([!] is not whitespace, so backtracking cannot help). *)
Definition comment_at (s : string) : option string :=
  match s with
  | EmptyString => None
  | String c _ =>
      if is_space c then
        match lstrip_ws s with
        | String b r => if Ascii.eqb b "!" then dotstar_end r else None
        | EmptyString => None
        end
      else None
  end.

(** [re.sub(r"\s+!.*$", "", value)]: the leftmost match is removed. *)
Fixpoint strip_comment (s : string) : string :=
  match s with
  | EmptyString => EmptyString
  | String c s' =>
      match comment_at s with
      | Some tail => tail
      | None => String c (strip_comment s')
      end
  end.

Definition clean_value (value : string) : string := py_strip (strip_comment value).

Definition yield_opt (state : option stanza) : list stanza :=
  match state with Some st => [st] | None => [] end.

(** One iteration of [for raw in fh]: the stanzas yielded and the new
    value of [stanza] ([None] for Python's [None]). *)
Definition parse_step (state : option stanza) (raw : string)
  : list stanza * option stanza :=
  let line := rstrip_nl raw in
  if startswith line "[Term]" then (yield_opt state, Some [])
  else if startswith line "[" && endswith line "]" then (yield_opt state, None)
  else
    match state with
    | Some st =>
        match partition_sep line with
        | Some (tag, value) => ([], Some (store st tag (clean_value value)))
        | None => ([], Some st)
        end
    | None => ([], None)
    end.

Fixpoint parse_lines (state : option stanza) (lines : list string) : list stanza :=
  match lines with
  | [] => yield_opt state
  | raw :: rest =>
      let '(out, state') := parse_step state raw in out ++ parse_lines state' rest
  end.

(** The stanzas yielded by [parse_obo] on a file whose lines are [lines]. *)
Definition parse_obo (lines : list string) : list stanza := parse_lines None lines.

(* ------------------------------------------------------------------ *)
(** ** [parse_synonym_tag] *)

(** [^"(.*?)"\s+]: after the opening quote, the shortest label (no
    newline) followed by a quote and a whitespace character; returns the
    label and the text after the closing quote. *)
Fixpoint syn_label (s : string) : option (string * string) :=
  match s with
  | EmptyString => None
  | String c s' =>
      if Ascii.eqb c dq && match s' with String c2 _ => is_space c2 | EmptyString => false end
      then Some (EmptyString, s')
      else if Ascii.eqb c nl then None
      else match syn_label s' with
           | Some (l, r) => Some (String c l, r)
           | None => None
           end
  end.

Definition scope_alternatives : list string :=
  ["EXACT"; "RELATED"; "NARROW"; "BROAD"; "SYNONYM"].

(** [(EXACT|RELATED|NARROW|BROAD|SYNONYM)?]: the first alternative that
    matches at this point.  The rest of [_SYNONYM_RE] ([\s*] and the
    optional bracket) always matches, possibly empty, so it never makes
    the engine backtrack. *)
Definition syn_scope (s : string) : option string :=
  find (fun sc => String.prefix sc s) scope_alternatives.

(** [parse_synonym_tag raw = (label, scope, like_go_id)]. *)
Definition parse_synonym_tag (raw : string) : string * string * Z :=
  match raw with
  | String c s =>
      if Ascii.eqb c dq then
        match syn_label s with
        | Some (label, rest) =>
            (label,
             match syn_scope (lstrip_ws rest) with Some sc => sc | None => "EXACT" end,
             0%Z)
        | None => (raw, "EXACT", 0%Z)
        end
      else (raw, "EXACT", 0%Z)
  | EmptyString => (raw, "EXACT", 0%Z)
  end.

(* ------------------------------------------------------------------ *)
(** ** The [def] clean-up of [build] *)

Fixpoint all_space (s : string) : bool :=
  match s with
  | EmptyString => true
  | String c s' => is_space c && all_space s'
  end.

(** [.*?\]\s*$]: some [']'] followed by whitespace only, with no newline
    before it. *)
Fixpoint cite_tail (t : string) : bool :=
  match t with
  | EmptyString => false
  | String c t' =>
      (Ascii.eqb c "]" && all_space t') || (negb (Ascii.eqb c nl) && cite_tail t')
  end.

(** The pattern of the citation block matched at the start of [s]. *)
Definition cite_at (s : string) : bool :=
  match s with
  | String c s' =>
      Ascii.eqb c dq &&
      match lstrip_ws s' with
      | String b t => Ascii.eqb b "[" && cite_tail t
      | EmptyString => false
      end
  | EmptyString => false
  end.

(** [re.sub(r'<dq>\s*\[.*?\]\s*$', '', defn)], [<dq>] the double quote
    [dq]: a match runs to the end of the string, so the text from the
    leftmost match on is removed. *)
Fixpoint strip_citation (s : string) : string :=
  match s with
  | EmptyString => EmptyString
  | String c s' => if cite_at s then EmptyString else String c (strip_citation s')
  end.

(** [stanza.get(k, d)] for a tag outside [multi], which holds a string. *)
Definition get_str (st : stanza) (k d : string) : string :=
  match st_lookup st k with Some (Single v) => v | _ => d end.

(** [defn = t.get("def", None); if defn: defn = re.sub(...).lstrip(dq).strip()]. *)
Definition term_definition (t : stanza) : option string :=
  match st_lookup t "def" with
  | Some (Single defn) =>
      match defn with
      | EmptyString => Some defn
      | _ => Some (py_strip (lstrip_dq (strip_citation defn)))
      end
  | _ => None
  end.

(* ------------------------------------------------------------------ *)
(** ** Classification, rows and edges ([build]) *)

(** [t.get(k, [])] for a tag of [multi]; a string would be iterated
    character by character. *)
Definition get_list (st : stanza) (k : string) : list string :=
  match st_lookup st k with
  | Some (Multi vs) => vs
  | Some (Single v) => map chr (list_ascii_of_string v)
  | None => []
  end.

Definition is_obsolete_true (st : stanza) : bool :=
  match st_lookup st "is_obsolete" with
  | Some (Single v) => String.eqb v "true"
  | _ => false
  end.

(** The first loop of [build]: [(terms, obsolete)], in input order. *)
Fixpoint classify (stanzas : list stanza) : list stanza * list stanza :=
  match stanzas with
  | [] => ([], [])
  | st :: rest =>
      let '(terms, obsolete) := classify rest in
      if negb (startswith (get_str st "id" "") "GO:") then (terms, obsolete)
      else if is_obsolete_true st then (terms, st :: obsolete)
      else (st :: terms, obsolete)
  end.

(** [active_ids = {t["id"] for t in terms}]. *)
Definition active_ids (terms : list stanza) : list string :=
  map (fun t => get_str t "id" "") terms.

(** [NS_MAP]. *)
Definition NS_MAP (ns : string) : option (string * string) :=
  if String.eqb ns "biological_process" then Some ("BP", "biological process")
  else if String.eqb ns "molecular_function" then Some ("MF", "molecular function")
  else if String.eqb ns "cellular_component" then Some ("CC", "cellular component")
  else None.

(** [short, _ = NS_MAP.get(ns, ("??", "??"))]. *)
Definition short_of (ns : string) : string :=
  match NS_MAP ns with Some (short, _) => short | None => "??" end.

(** A row of [go_term] / [go_obsolete]: [(go_id, term, ontology, definition)]. *)
Definition term_row (t : stanza) : string * string * string * option string :=
  (get_str t "id" "", get_str t "name" "", short_of (get_str t "namespace" ""),
   term_definition t).

Definition term_rows (terms : list stanza) := map term_row terms.

(** A row of [go_synonym]. *)
Record syn_row := mk_syn_row {
  sr_go_id : string; sr_synonym : string; sr_secondary : option string;
  sr_scope : string; sr_like_go_id : Z }.

Definition syn_rows_of_term (t : stanza) : list syn_row :=
  let go_id := get_str t "id" "" in
  map (fun raw => let '(label, scope, _) := parse_synonym_tag raw in
                  mk_syn_row go_id label None scope 0)
      (get_list t "synonym") ++
  map (fun alt => mk_syn_row go_id alt (Some alt) "EXACT" 1) (get_list t "alt_id").

Definition syn_rows (terms : list stanza) : list syn_row :=
  flat_map syn_rows_of_term terms.

(** The keys of [parent_rows] / [direct_children]. *)
Inductive ns := BP | MF | CC.

Definition ns_of_short (short : string) : option ns :=
  if String.eqb short "BP" then Some BP
  else if String.eqb short "MF" then Some MF
  else if String.eqb short "CC" then Some CC
  else None.

(** [parent_rows[ns]] and [direct_children[ns]]. *)
Record part := mk_part {
  parent_rows : list (string * string * string);
  direct_children : list (string * list string) }.

Record parts := mk_parts { p_bp : part; p_mf : part; p_cc : part }.

Definition empty_parts : parts :=
  mk_parts (mk_part [] []) (mk_part [] []) (mk_part [] []).

Definition get_part (ps : parts) (n : ns) : part :=
  match n with BP => p_bp ps | MF => p_mf ps | CC => p_cc ps end.

Definition set_part (ps : parts) (n : ns) (p : part) : parts :=
  match n with
  | BP => mk_parts p (p_mf ps) (p_cc ps)
  | MF => mk_parts (p_bp ps) p (p_cc ps)
  | CC => mk_parts (p_bp ps) (p_mf ps) p
  end.

(** [d[k].append(v)] on a [defaultdict(list)]. *)
Fixpoint dd_append (k v : string) (m : list (string * list string))
  : list (string * list string) :=
  match m with
  | [] => [(k, [v])]
  | (k', l) :: m' =>
      if String.eqb k k' then (k', l ++ [v]) :: m' else (k', l) :: dd_append k v m'
  end.

(** [parent_rows[short].append((go_id, parent_id, rel))];
    [direct_children[short][parent_id].append(go_id)]. *)
Definition add_edge (ps : parts) (n : ns) (go_id parent_id rel : string) : parts :=
  let p := get_part ps n in
  set_part ps n (mk_part (parent_rows p ++ [(go_id, parent_id, rel)])
                         (dd_append parent_id go_id (direct_children p))).

Inductive exn := IndexError.

Inductive result (A : Type) := Ok (a : A) | Err (e : exn).
Arguments Ok {A} a.
Arguments Err {A} e.

Fixpoint fold_result {A B : Type} (f : A -> B -> result A) (l : list B) (a : A)
  : result A :=
  match l with
  | [] => Ok a
  | b :: l' => match f a b with Ok a' => fold_result f l' a' | Err e => Err e end
  end.

(** One [is_a] value: [parent_id = raw.split()[0]], an [IndexError] when
    the value has no token. *)
Definition is_a_entry (active : list string) (n : ns) (go_id : string)
  (ps : parts) (raw : string) : result parts :=
  match py_split raw with
  | [] => Err IndexError
  | parent_id :: _ =>
      Ok (if mem parent_id active then add_edge ps n go_id parent_id "is_a" else ps)
  end.

(** One [relationship] value. *)
Definition rel_entry (active : list string) (n : ns) (go_id : string)
  (ps : parts) (raw : string) : parts :=
  match py_split raw with
  | rel_type :: parent_id :: _ =>
      if mem parent_id active then add_edge ps n go_id parent_id rel_type else ps
  | _ => ps
  end.

(** The body of [for t in terms] that fills the parent tables. *)
Definition collect_term (active : list string) (ps : parts) (t : stanza) : result parts :=
  let go_id := get_str t "id" "" in
  match ns_of_short (short_of (get_str t "namespace" "")) with
  | None => Ok ps
  | Some n =>
      match fold_result (is_a_entry active n go_id) (get_list t "is_a") ps with
      | Ok ps1 => Ok (fold_left (rel_entry active n go_id) (get_list t "relationship") ps1)
      | Err e => Err e
      end
  end.

Definition collect_edges (terms : list stanza) : result parts :=
  fold_result (collect_term (active_ids terms)) terms empty_parts.

(* ------------------------------------------------------------------ *)
(** ** The command line ([if __name__ == "__main__"]) *)

(** [sys.exit(msg)] prints [msg] on stderr and exits with status 1. *)
Inductive outcome := Exit (status : Z) (stderr : string) | Build (obo_path db_path : string).

Definition usage : string := "Usage: python build_go_db.py <go.obo> <output.sqlite3>".

(** [argv] is [sys.argv], the script name first. *)
Definition main (argv : list string) : outcome :=
  if Nat.eqb (length argv) 3 then Build (nth 1 argv "") (nth 2 argv "")
  else Exit 1 usage.


(* ------------------------------------------------------------------ *)
(** ** Auxiliary definitions of the statements *)

(** The edge relation of a children map. *)
Definition chrel (ch : list (string * list string)) (p c : string) : Prop :=
  In c (dd_get ch p).

(** What the first loop of [transitive_closure] establishes. *)
Record children_inv (d : edges) (ch : list (string * list string))
  (nodes : list string) : Prop := {
  ci_nodes_nodup : NoDup nodes;
  ci_children_nodup : forall x, NoDup (dd_get ch x);
  ci_edge : forall p c, chrel ch p c <-> edge d p c;
  ci_in_nodes : forall p c, chrel ch p c -> In c nodes /\ In p nodes
}.

(** The pairs produced by the traversal from ancestor [a]. *)
Definition block (ord : list string -> list string) (ch : list (string * list string))
  (nodes : list string) (a : string) : list (string * string) :=
  match walk ord (walk_fuel nodes) ch a [] (rev (ord (dd_get ch a))) [] with
  | Some p => p
  | None => []
  end.

(** [n] double quotes. *)
Fixpoint quotes (n : nat) : string :=
  match n with O => EmptyString | S n' => String dq (quotes n') end.

(** [c] does not occur in [s]. *)
Fixpoint no_char (c : ascii) (s : string) : bool :=
  match s with
  | EmptyString => true
  | String c' s' => negb (Ascii.eqb c c') && no_char c s'
  end.

(** The two marker branches of [parse_obo]'s loop. *)
Definition is_marker (line : string) : bool :=
  startswith line "[Term]" || (startswith line "[" && endswith line "]").

(** What a body line does to the open stanza. *)
Definition store_line (st : stanza) (raw : string) : stanza :=
  match partition_sep (rstrip_nl raw) with
  | Some (tag, value) => store st tag (clean_value value)
  | None => st
  end.

(** The cleaned values of the body lines whose tag is [tag], in order. *)
Fixpoint tag_values (tag : string) (body : list string) : list string :=
  match body with
  | [] => []
  | raw :: rest =>
      match partition_sep (rstrip_nl raw) with
      | Some (t, v) =>
          if String.eqb t tag then clean_value v :: tag_values tag rest
          else tag_values tag rest
      | None => tag_values tag rest
      end
  end.

(** [parts_ok active ps]: every parent of a row of [parent_rows] and every
    key of [direct_children] is in [active], in every partition. *)
Definition parts_ok (active : list string) (ps : parts) : Prop :=
  forall n,
    (forall c p r, In (c, p, r) (parent_rows (get_part ps n)) -> In p active) /\
    (forall p l, In (p, l) (direct_children (get_part ps n)) -> In p active).

(** The shape of the dicts [parse_obo] yields: a tag of [multi] holds a
    non-empty list, any other tag a string. *)
Definition stanza_shape (st : stanza) : Prop :=
  forall k v, st_lookup st k = Some v ->
    if mem k multi then exists vs, v = Multi vs /\ vs <> [] else exists s, v = Single s.

(** [s.rstrip()]: [s] without its final run of whitespace. *)
Fixpoint rtrim_ws (s : string) : string :=
  match s with
  | EmptyString => EmptyString
  | String c s' => if all_space s then EmptyString else String c (rtrim_ws s')
  end.

(** Every row of [parent_rows] of [ps] is one of [ps']. *)
Definition rows_sub (ps ps' : parts) : Prop :=
  forall n x, In x (parent_rows (get_part ps n)) -> In x (parent_rows (get_part ps' n)).

(** [c] is listed under [p] in [direct_children] of partition [n]. *)
Definition dc_edge (ps : parts) (n : ns) (p c : string) : Prop :=
  exists l, In (p, l) (direct_children (get_part ps n)) /\ In c l.

(** Where a row [(c, p, r)] of partition [n] comes from: an active term
    [c] of that partition with an [is_a] value naming [p] (then [r] is
    [is_a]) or a [relationship] value [r p ...], [p] being active. *)
Definition row_source (terms : list stanza) (n : ns) (c p r : string) : Prop :=
  exists t, In t terms /\ get_str t "id" "" = c /\
    ns_of_short (short_of (get_str t "namespace" "")) = Some n /\
    In p (active_ids terms) /\
    ((r = "is_a" /\ exists raw rest, In raw (get_list t "is_a") /\ py_split raw = p :: rest) \/
     (exists raw rest, In raw (get_list t "relationship") /\ py_split raw = r :: p :: rest)).

Definition dc_consistent (ps : parts) : Prop :=
  forall n p c, dc_edge ps n p c <-> exists r, In (c, p, r) (parent_rows (get_part ps n)).

(** Three terms of [biological_process]: an [is_a] edge, and two
    [relationship] values, one to an active term and one to an unknown one. *)
Definition sample_terms : list stanza :=
  [[("id", Single "GO:0000001"); ("namespace", Single "biological_process")];
   [("id", Single "GO:0000002"); ("namespace", Single "biological_process");
    ("is_a", Multi ["GO:0000001"])];
   [("id", Single "GO:0000003"); ("namespace", Single "biological_process");
    ("relationship", Multi ["part_of GO:0000002"; "part_of GO:0000009"])]].

(* ------------------------------------------------------------------ *)
(** ** Examples of [transitive_closure] *)

Example tc_chain :
  transitive_closure (fun l => l)
    [("GO:0000001", ["GO:0000002"]); ("GO:0000002", ["GO:0000003"])]
  = [("GO:0000001", "GO:0000002"); ("GO:0000001", "GO:0000003");
     ("GO:0000002", "GO:0000003")].
Proof. reflexivity. Qed.

Example tc_cycle :
  transitive_closure (fun l => l) [("a", ["b"]); ("b", ["a"])]
  = [("a", "b"); ("a", "a"); ("b", "a"); ("b", "b")].
Proof. reflexivity. Qed.

(* ------------------------------------------------------------------ *)
(** ** Lemmas on the containers *)

Lemma mem_In x s : mem x s = true <-> In x s.
Proof.
  unfold mem. rewrite existsb_exists. split.
  - intros [y [Hy Hxy]]. apply String.eqb_eq in Hxy. subst. exact Hy.
  - intros H. exists x. split; [exact H | apply String.eqb_refl].
Qed.

Lemma mem_false x s : mem x s = false <-> ~ In x s.
Proof.
  rewrite <- mem_In. destruct (mem x s); split; congruence.
Qed.


Lemma set_add_In x y s : In y (set_add x s) <-> y = x \/ In y s.
Proof.
  unfold set_add. destruct (mem x s) eqn:E.
  - apply mem_In in E. split; [tauto|]. intros [->|H]; assumption.
  - rewrite in_app_iff. simpl. split; [intros [H|[H|H]]|intros [H|H]]; subst; auto; contradiction.
Qed.

Lemma set_add_NoDup x s : NoDup s -> NoDup (set_add x s).
Proof.
  unfold set_add. destruct (mem x s) eqn:E; intros H; [exact H|].
  apply mem_false in E. apply NoDup_app; auto using NoDup_cons, NoDup_nil.
  intros y Hy [<-|[]]. contradiction.
Qed.

Lemma set_add_new x s : mem x s = false -> set_add x s = s ++ [x].
Proof. unfold set_add. intros ->. reflexivity. Qed.

Lemma dd_get_set_add k v m x :
  dd_get (dd_set_add k v m) x =
  if String.eqb x k then set_add v (dd_get m k) else dd_get m x.
Proof.
  induction m as [|[k' s] m IH]; simpl.
  - destruct (String.eqb x k); reflexivity.
  - destruct (String.eqb k k') eqn:Ekk'; simpl.
    + apply String.eqb_eq in Ekk'. subst k'.
      destruct (String.eqb x k); reflexivity.
    + rewrite IH. destruct (String.eqb x k') eqn:Exk'.
      * apply String.eqb_eq in Exk'. subst k'.
        destruct (String.eqb x k) eqn:Exk; [|reflexivity].
        apply String.eqb_eq in Exk. subst. rewrite String.eqb_refl in Ekk'.
        discriminate.
      * reflexivity.
Qed.

Lemma filter_length_mono {A} (f g : A -> bool) l :
  (forall x, g x = true -> f x = true) ->
  length (filter g l) <= length (filter f l).
Proof.
  intros Hgf. induction l as [|x l IH]; simpl; [lia|].
  destruct (g x) eqn:Eg.
  - rewrite (Hgf x Eg). simpl. lia.
  - destruct (f x); simpl; lia.
Qed.

Lemma filter_length_strict {A} (f g : A -> bool) l y :
  (forall x, g x = true -> f x = true) ->
  In y l -> f y = true -> g y = false ->
  length (filter g l) < length (filter f l).
Proof.
  intros Hgf. induction l as [|x l IH]; simpl; [tauto|].
  intros [<-|Hy] Hf Hg.
  - rewrite Hf, Hg. simpl.
    pose proof (filter_length_mono f g l Hgf). lia.
  - specialize (IH Hy Hf Hg). destruct (g x) eqn:Eg.
    + rewrite (Hgf x Eg). simpl. lia.
    + destruct (f x); simpl; lia.
Qed.

(* ------------------------------------------------------------------ *)
(** ** The children map built by [transitive_closure] *)

Lemma build_children_step d ch nodes parent ch_list :
  children_inv d ch nodes ->
  let '(ch', nodes') :=
    fold_left (fun '(ch, nodes) c => (dd_set_add parent c ch, set_add c nodes))
      ch_list (ch, set_add parent nodes) in
  children_inv (d ++ [(parent, ch_list)]) ch' nodes'.
Proof.
  intros Hinv.
  assert (Hgen : forall pre post ch0 nodes0,
    ch_list = pre ++ post ->
    In parent nodes0 -> NoDup nodes0 ->
    (forall x, NoDup (dd_get ch0 x)) ->
    (forall p c, chrel ch0 p c <-> edge d p c \/ (p = parent /\ In c pre)) ->
    (forall p c, chrel ch0 p c -> In c nodes0 /\ In p nodes0) ->
    let '(ch', nodes') :=
      fold_left (fun '(ch, nodes) c => (dd_set_add parent c ch, set_add c nodes))
        post (ch0, nodes0) in
    children_inv (d ++ [(parent, ch_list)]) ch' nodes').
  { intros pre post. revert pre.
    induction post as [|c post IH]; intros pre ch0 nodes0 Hsplit Hpar Hnd Hchnd Hrel Hin;
      simpl.
    - rewrite app_nil_r in Hsplit. subst pre. constructor.
      + exact Hnd.
      + exact Hchnd.
      + intros p c. rewrite Hrel. unfold edge. split.
        * intros [[l [Hl Hc]]|[-> Hc]].
          -- exists l. split; [apply in_or_app; left; exact Hl| exact Hc].
          -- exists ch_list.
             split; [apply in_or_app; right; left; reflexivity | exact Hc].
        * intros [l [Hl Hc]]. apply in_app_or in Hl as [Hl|[Hl|[]]].
          -- left. exists l. auto.
          -- injection Hl as -> ->. right. auto.
      + exact Hin.
    - apply (IH (pre ++ [c])).
      + rewrite Hsplit, <- app_assoc. reflexivity.
      + apply set_add_In. right. exact Hpar.
      + apply set_add_NoDup. exact Hnd.
      + intros x. rewrite dd_get_set_add. destruct (String.eqb x parent);
          [apply set_add_NoDup|]; apply Hchnd.
      + intros p c'. unfold chrel. rewrite dd_get_set_add.
        destruct (String.eqb p parent) eqn:Ep.
        * apply String.eqb_eq in Ep. subst p. rewrite set_add_In.
          fold (chrel ch0 parent c'). rewrite Hrel, in_app_iff. simpl.
          intuition congruence.
        * fold (chrel ch0 p c'). rewrite Hrel, in_app_iff. simpl.
          apply String.eqb_neq in Ep. intuition congruence.
      + intros p c'. unfold chrel. rewrite dd_get_set_add.
        rewrite !set_add_In.
        destruct (String.eqb p parent) eqn:Ep.
        * apply String.eqb_eq in Ep. subst p. rewrite set_add_In.
          intros [->|H]; [tauto|]. apply Hin in H. tauto.
        * intros H. apply Hin in H. tauto. }
  apply (Hgen [] ch_list).
  - reflexivity.
  - apply set_add_In. left. reflexivity.
  - apply set_add_NoDup, (ci_nodes_nodup _ _ _ Hinv).
  - apply (ci_children_nodup _ _ _ Hinv).
  - intros p c. rewrite (ci_edge _ _ _ Hinv). simpl. tauto.
  - intros p c H. apply (ci_in_nodes _ _ _ Hinv) in H. rewrite !set_add_In. tauto.
Qed.

Lemma build_children_inv d :
  let '(ch, nodes) := build_children d in children_inv d ch nodes.
Proof.
  unfold build_children.
  assert (Hgen : forall post pre ch nodes,
    children_inv pre ch nodes ->
    let '(ch', nodes') :=
      fold_left
        (fun '(ch, nodes) '(parent, ch_list) =>
           fold_left (fun '(ch, nodes) c => (dd_set_add parent c ch, set_add c nodes))
             ch_list (ch, set_add parent nodes))
        post (ch, nodes) in
    children_inv (pre ++ post) ch' nodes').
  { induction post as [|[parent ch_list] post IH]; intros pre ch nodes Hinv; simpl.
    - rewrite app_nil_r. exact Hinv.
    - pose proof (build_children_step pre ch nodes parent ch_list Hinv) as Hs.
      destruct (fold_left _ ch_list _) as [ch1 nodes1].
      specialize (IH _ _ _ Hs). rewrite <- app_assoc in IH. exact IH. }
  apply (Hgen d [] [] []). constructor.
  - constructor.
  - intros x. constructor.
  - intros p c. unfold chrel, edge. simpl. split; [tauto|]. intros [l [[] _]].
  - intros p c [].
Qed.

(* ------------------------------------------------------------------ *)
(** ** The frontier loop *)

Section Walk.

Variable ord : list string -> list string.
Hypothesis Hord : ord_spec ord.
Variables (ch : list (string * list string)) (nodes : list string).
Hypothesis Hch_nodup : forall x, NoDup (dd_get ch x).
Hypothesis Hch_nodes : forall p c, chrel ch p c -> In c nodes.

Lemma in_frontier x l : NoDup l -> (In x (rev (ord l)) <-> In x l).
Proof.
  intros Hnd. rewrite <- in_rev. split; apply Permutation_in;
    [|symmetry]; apply Hord; exact Hnd.
Qed.

Lemma frontier_length x : length (rev (ord (dd_get ch x))) <= length nodes.
Proof.
  rewrite length_rev, (Permutation_length (Hord _ (Hch_nodup x))).
  apply NoDup_incl_length; [apply Hch_nodup|]. intros c Hc. apply (Hch_nodes x c Hc).
Qed.

Definition unvisited (visited : list string) : nat :=
  length (filter (fun x => negb (mem x visited)) nodes).

(** Each iteration lowers [N * unvisited + length queue]. *)
Lemma walk_some fuel a visited queue pairs :
  incl queue nodes ->
  length nodes * unvisited visited + length queue < fuel ->
  exists r, walk ord fuel ch a visited queue pairs = Some r.
Proof.
  revert visited queue pairs.
  induction fuel as [|fuel IH]; intros visited queue pairs Hq Hm; [lia|].
  simpl. destruct queue as [|node queue]; [eauto|].
  destruct (mem node visited) eqn:Ev.
  - apply IH; [intros y Hy; apply Hq; right; exact Hy|]. simpl in Hm. lia.
  - apply IH.
    + intros y Hy. apply in_app_or in Hy as [Hy|Hy].
      * apply (in_frontier y _ (Hch_nodup node)) in Hy. apply (Hch_nodes node y Hy).
      * apply Hq. right. exact Hy.
    + assert (Hlt : unvisited (set_add node visited) < unvisited visited).
      { unfold unvisited. apply (filter_length_strict _ _ _ node).
        - intros x Hx. destruct (mem x visited) eqn:E; [|reflexivity].
          apply mem_In in E. assert (In x (set_add node visited))
            by (apply set_add_In; right; exact E).
          apply mem_In in H. rewrite H in Hx. discriminate.
        - apply Hq. left. reflexivity.
        - rewrite Ev. reflexivity.
        - assert (In node (set_add node visited)) by (apply set_add_In; left; reflexivity).
          apply mem_In in H. rewrite H. reflexivity. }
      rewrite length_app. pose proof (frontier_length node). simpl in Hm. nia.
Qed.

Lemma walk_app fuel a visited queue pre pairs :
  walk ord fuel ch a visited queue (pre ++ pairs) =
  match walk ord fuel ch a visited queue pairs with
  | Some r => Some (pre ++ r) | None => None end.
Proof.
  revert visited queue pairs.
  induction fuel as [|fuel IH]; intros visited queue pairs; simpl; [reflexivity|].
  destruct queue as [|node queue]; [reflexivity|].
  destruct (mem node visited); [apply IH|]. rewrite <- app_assoc. apply IH.
Qed.

(** What one frontier loop returns: the pairs [(a, w)] for the newly
    visited nodes [w], in visiting order. *)
Lemma walk_spec fuel a visited queue pairs r :
  walk ord fuel ch a visited queue pairs = Some r ->
  exists W, r = pairs ++ map (pair a) W /\
    (NoDup visited -> NoDup (visited ++ W)) /\
    (forall R : string -> Prop,
       (forall x, In x visited -> R x) -> (forall x, In x queue -> R x) ->
       (forall v x, R v -> chrel ch v x -> R x) ->
       forall x, In x W -> R x) /\
    (forall X : list string,
       (forall v c, In v visited -> chrel ch v c -> In c visited \/ In c queue) ->
       (forall c, In c X -> In c visited \/ In c queue) ->
       (forall v c, In v (visited ++ W) -> chrel ch v c -> In c (visited ++ W)) /\
       (forall c, In c X -> In c (visited ++ W))).
Proof.
  revert visited queue pairs.
  induction fuel as [|fuel IH]; intros visited queue pairs Hw; simpl in Hw;
    [discriminate|].
  destruct queue as [|node queue].
  - injection Hw as <-. exists []. rewrite !app_nil_r.
    split; [reflexivity|]. split; [auto|]. split.
    + intros R _ _ _ x [].
    + intros X Hcl HX. split.
      * intros v c Hv Hc. destruct (Hcl v c Hv Hc) as [H|[]]. exact H.
      * intros c Hc. destruct (HX c Hc) as [H|[]]. exact H.
  - destruct (mem node visited) eqn:Ev.
    + apply mem_In in Ev.
      destruct (IH _ _ _ Hw) as [W [Hr [Hnd [Hsound Hcomp]]]].
      exists W. split; [exact Hr|]. split; [exact Hnd|]. split.
      * intros R HV HQ Hcl. apply Hsound; auto.
        intros x Hx. apply HQ. right. exact Hx.
      * intros X Hcl HX. apply Hcomp.
        -- intros v c Hv Hc. destruct (Hcl v c Hv Hc) as [H|[<-|H]]; auto.
        -- intros c Hc. destruct (HX c Hc) as [H|[<-|H]]; auto.
    + rewrite (set_add_new _ _ Ev) in Hw. apply mem_false in Ev.
      destruct (IH _ _ _ Hw) as [W [Hr [Hnd [Hsound Hcomp]]]].
      exists (node :: W). split.
      { rewrite Hr, <- app_assoc. reflexivity. }
      split.
      { intros HndV. rewrite <- (app_assoc visited [node] W) in Hnd. apply Hnd.
        apply NoDup_app; auto using NoDup_cons, NoDup_nil.
        intros y Hy [<-|[]]. contradiction. }
      split.
      { intros R HV HQ Hcl x [<-|Hx].
        - apply HQ. left. reflexivity.
        - apply (Hsound R); auto.
          + intros y Hy. apply in_app_or in Hy as [Hy|[<-|[]]]; auto.
            apply HQ. left. reflexivity.
          + intros y Hy. apply in_app_or in Hy as [Hy|Hy].
            * apply (in_frontier y _ (Hch_nodup node)) in Hy.
              apply (Hcl node y); [apply HQ; left; reflexivity|exact Hy].
            * apply HQ. right. exact Hy. }
      intros X Hcl HX.
      rewrite <- (app_assoc visited [node] W) in Hcomp. apply Hcomp.
      * intros v c Hv Hc. rewrite in_app_iff, in_app_iff.
        apply in_app_or in Hv as [Hv|[<-|[]]].
        -- destruct (Hcl v c Hv Hc) as [H|[<-|H]]; simpl; auto.
        -- right. left. apply (in_frontier c _ (Hch_nodup node)). exact Hc.
      * intros c Hc. rewrite in_app_iff, in_app_iff.
        destruct (HX c Hc) as [H|[<-|H]]; simpl; auto.
Qed.

End Walk.

(* ------------------------------------------------------------------ *)
(** ** One traversal per ancestor *)

Lemma filter_all_true {A} (l : list A) : filter (fun _ => true) l = l.
Proof. induction l as [|x l IH]; simpl; [|rewrite IH]; reflexivity. Qed.

Lemma reach_chrel d ch nodes a t :
  children_inv d ch nodes -> (reach d a t <-> clos_trans _ (chrel ch) a t).
Proof.
  intros Hinv. split; intros H; induction H as [x y Hxy|x y z _ IH1 _ IH2].
  - apply t_step. apply (ci_edge _ _ _ Hinv). exact Hxy.
  - eapply t_trans; eauto.
  - apply t_step. apply (ci_edge _ _ _ Hinv). exact Hxy.
  - eapply t_trans; eauto.
Qed.

Lemma reach_source_in_nodes d ch nodes a t :
  children_inv d ch nodes -> reach d a t -> In a nodes.
Proof.
  intros Hinv H. apply clos_trans_t1n in H.
  destruct H as [y Hy|y z Hy _];
    apply (ci_edge _ _ _ Hinv) in Hy; apply (ci_in_nodes _ _ _ Hinv) in Hy; tauto.
Qed.

Section Blocks.

Variable ord : list string -> list string.
Hypothesis Hord : ord_spec ord.
Variables (d : edges) (ch : list (string * list string)) (nodes : list string).
Hypothesis Hinv : children_inv d ch nodes.

Let Hch_nodup := ci_children_nodup _ _ _ Hinv.
Let Hch_nodes : forall p c, chrel ch p c -> In c nodes.
Proof. intros p c H. apply (ci_in_nodes _ _ _ Hinv) in H. tauto. Qed.

Lemma walk_full a :
  exists W,
    walk ord (walk_fuel nodes) ch a [] (rev (ord (dd_get ch a))) [] =
      Some (map (pair a) W) /\
    NoDup W /\ (forall t, In t W <-> reach d a t) /\ incl W nodes.
Proof.
  destruct (walk_some ord Hord ch nodes Hch_nodup Hch_nodes (walk_fuel nodes) a []
              (rev (ord (dd_get ch a))) []) as [r Hr].
  { intros y Hy. rewrite (in_frontier ord Hord y _ (Hch_nodup a)) in Hy.
    exact (Hch_nodes a y Hy). }
  { unfold unvisited, walk_fuel. simpl. rewrite filter_all_true.
    pose proof (frontier_length ord Hord ch nodes Hch_nodup Hch_nodes a). nia. }
  pose proof Hr as Hr'.
  apply (walk_spec ord Hord ch Hch_nodup) in Hr'.
  destruct Hr' as [W [-> [Hnd [Hsound Hcomp]]]].
  simpl in Hr, Hnd, Hcomp.
  exists W. split; [exact Hr|]. split; [apply Hnd; constructor|]. split.
  - intros t. rewrite (reach_chrel _ _ _ _ _ Hinv). split.
    + apply (Hsound (clos_trans _ (chrel ch) a)).
      * intros x [].
      * intros x Hx. apply t_step.
        rewrite (in_frontier ord Hord x _ (Hch_nodup a)) in Hx. exact Hx.
      * intros v x Hv Hx. eapply t_trans; [exact Hv|apply t_step; exact Hx].
    + destruct (Hcomp (dd_get ch a)) as [Hcl HX].
      * intros v c [].
      * intros c Hc. right. rewrite (in_frontier ord Hord c _ (Hch_nodup a)). exact Hc.
      * intros H. apply clos_trans_tn1 in H.
        induction H as [y Hy|y z Hyz _ IH].
        -- apply HX. exact Hy.
        -- apply (Hcl y z); assumption.
  - intros x. apply (Hsound (fun x => In x nodes)).
    + intros y [].
    + intros y Hy. rewrite (in_frontier ord Hord y _ (Hch_nodup a)) in Hy.
      exact (Hch_nodes a y Hy).
    + intros v y _ Hy. exact (Hch_nodes v y Hy).
Qed.

Lemma block_spec a :
  exists W, block ord ch nodes a = map (pair a) W /\
    NoDup W /\ (forall t, In t W <-> reach d a t) /\ incl W nodes.
Proof.
  destruct (walk_full a) as [W [Hw H]]. exists W. unfold block. rewrite Hw. auto.
Qed.

Lemma over_ancestors_blocks ancs pairs :
  over_ancestors ord (walk_fuel nodes) ch ancs pairs =
  Some (pairs ++ flat_map (block ord ch nodes) ancs).
Proof.
  revert pairs. induction ancs as [|a ancs IH]; intros pairs;
    cbn [over_ancestors flat_map].
  - rewrite app_nil_r. reflexivity.
  - destruct (walk_full a) as [W [Hw _]].
    pose proof (walk_app ord ch (walk_fuel nodes) a [] (rev (ord (dd_get ch a))) pairs [])
      as E.
    rewrite app_nil_r, Hw in E. rewrite E.
    assert (Hb : block ord ch nodes a = map (pair a) W)
      by (unfold block; rewrite Hw; reflexivity).
    rewrite IH, <- app_assoc, Hb. reflexivity.
Qed.

Lemma flat_map_blocks_NoDup ancs :
  NoDup ancs -> NoDup (flat_map (block ord ch nodes) ancs).
Proof.
  induction ancs as [|a ancs IH]; intros Hnd; simpl; [constructor|].
  inversion Hnd as [|? ? Hnin Hnd']; subst.
  destruct (block_spec a) as [W [-> [HndW _]]].
  apply NoDup_app.
  - apply Finite.Injective_map_NoDup; [intros x y H; injection H; auto|exact HndW].
  - apply IH. exact Hnd'.
  - intros [a' t] H1 H2. apply in_map_iff in H1 as [w [Hw _]]. injection Hw as <- _.
    apply in_flat_map in H2 as [a'' [Ha'' Hb]].
    destruct (block_spec a'') as [W' [Hb' _]]. rewrite Hb' in Hb.
    apply in_map_iff in Hb as [w' [Hw' _]]. injection Hw' as <- _. contradiction.
Qed.

Lemma flat_map_blocks_In ancs a t :
  In (a, t) (flat_map (block ord ch nodes) ancs) <-> In a ancs /\ reach d a t.
Proof.
  rewrite in_flat_map. split.
  - intros [a' [Ha' Hb]]. destruct (block_spec a') as [W [Hb' [_ [HW _]]]].
    rewrite Hb' in Hb. apply in_map_iff in Hb as [w [Hw Hin]].
    injection Hw as <- <-. split; [exact Ha'|]. apply HW. exact Hin.
  - intros [Ha Hr]. exists a. split; [exact Ha|].
    destruct (block_spec a) as [W [Hb' [_ [HW _]]]]. rewrite Hb'.
    apply in_map. apply HW. exact Hr.
Qed.

Lemma flat_map_blocks_length ancs :
  length (flat_map (block ord ch nodes) ancs) <= length ancs * length nodes.
Proof.
  induction ancs as [|a ancs IH]; simpl; [lia|].
  rewrite length_app. destruct (block_spec a) as [W [-> [HndW [_ Hincl]]]].
  rewrite length_map. pose proof (NoDup_incl_length HndW Hincl). lia.
Qed.

End Blocks.

(** [transitive_closure] is the concatenation of one block per node. *)
Lemma transitive_closure_blocks ord d :
  ord_spec ord ->
  let '(ch, nodes) := build_children d in
  children_inv d ch nodes /\
  transitive_closure_opt ord d = Some (flat_map (block ord ch nodes) (ord nodes)) /\
  transitive_closure ord d = flat_map (block ord ch nodes) (ord nodes).
Proof.
  intros Hord. pose proof (build_children_inv d) as Hinv.
  unfold transitive_closure, transitive_closure_opt.
  destruct (build_children d) as [ch nodes].
  rewrite (over_ancestors_blocks ord Hord d ch nodes Hinv). simpl. auto.
Qed.

Definition pair_eq_dec (x y : string * string) : {x = y} + {x <> y}.
Proof. decide equality; apply string_dec. Defined.

(** The output of [transitive_closure]: no duplicate, and exactly the
    pairs related by one or more direct edges. *)
Lemma transitive_closure_reach ord d :
  ord_spec ord ->
  NoDup (transitive_closure ord d) /\
  (forall a t, In (a, t) (transitive_closure ord d) <-> reach d a t).
Proof.
  intros Hord.
  pose proof (transitive_closure_blocks ord d Hord) as Hb.
  destruct (build_children d) as [ch nodes]. destruct Hb as [Hinv [_ ->]].
  pose proof (Permutation_sym (Hord _ (ci_nodes_nodup _ _ _ Hinv))) as Hperm.
  split.
  - apply (flat_map_blocks_NoDup ord Hord d ch nodes Hinv).
    apply (Permutation_NoDup Hperm). apply (ci_nodes_nodup _ _ _ Hinv).
  - intros a t. rewrite (flat_map_blocks_In ord Hord d ch nodes Hinv).
    split; [tauto|]. intros Hr. split; [|exact Hr].
    apply (Permutation_in _ Hperm).
    exact (reach_source_in_nodes d ch nodes a t Hinv Hr).
Qed.

(** C1: the list returned by [transitive_closure] has no duplicate pair,
    and contains [(a, t)] exactly when [t] is reachable from [a] through
    one or more direct edges; a pair of distinct terms so related occurs
    exactly once, and when no term reaches itself (an acyclic input) the
    output is the irreflexive transitive closure. *)
Theorem transitive_closure_exact (ord : list string -> list string)
  (Hord : ord_spec ord) (d : edges) :
  NoDup (transitive_closure ord d) /\
  (forall a t, In (a, t) (transitive_closure ord d) <-> reach d a t) /\
  (forall a t, a <> t -> reach d a t ->
     count_occ pair_eq_dec (transitive_closure ord d) (a, t) = 1) /\
  ((forall x, ~ reach d x x) ->
     forall a t, In (a, t) (transitive_closure ord d) <-> a <> t /\ reach d a t).
Proof.
  destruct (transitive_closure_reach ord d Hord) as [Hnd Hin].
  split; [exact Hnd|]. split; [exact Hin|]. split.
  - intros a t _ Hr. apply NoDup_count_occ'; [exact Hnd|]. apply Hin. exact Hr.
  - intros Hacyc a t. rewrite Hin. split; [|tauto]. intros Hr. split; [|exact Hr].
    intros ->. exact (Hacyc t Hr).
Qed.

Lemma transitive_closure_exact_witness :
  ord_spec (fun l => l) /\
  transitive_closure (fun l => l)
    [("GO:0000001", ["GO:0000002"]); ("GO:0000002", ["GO:0000003"])] =
  [("GO:0000001", "GO:0000002"); ("GO:0000001", "GO:0000003");
   ("GO:0000002", "GO:0000003")] /\
  NoDup (transitive_closure (fun l => l)
    [("GO:0000001", ["GO:0000002"]); ("GO:0000002", ["GO:0000003"])]).
Proof.
  assert (Hid : ord_spec (fun l => l)) by (intros l _; apply Permutation_refl).
  split; [exact Hid|]. split; [reflexivity|].
  apply (transitive_closure_exact (fun l => l) Hid).
Defined.

(** C9: on every finite direct-edge dict, cycles and diamonds included,
    [transitive_closure] terminates: every frontier loop ends within its
    iteration bound, so the result is defined; a node is expanded at most
    once per ancestor (no duplicate pair) and there are at most [N * N]
    pairs for the [N] nodes of the dict. *)
Theorem transitive_closure_terminates (ord : list string -> list string)
  (Hord : ord_spec ord) (d : edges) :
  exists out, transitive_closure_opt ord d = Some out /\ NoDup out /\
    length out <= length (snd (build_children d)) * length (snd (build_children d)).
Proof.
  pose proof (transitive_closure_blocks ord d Hord) as Hb.
  destruct (build_children d) as [ch nodes]. destruct Hb as [Hinv [-> _]].
  pose proof (Hord _ (ci_nodes_nodup _ _ _ Hinv)) as Hperm.
  eexists. split; [reflexivity|]. split.
  - apply (flat_map_blocks_NoDup ord Hord d ch nodes Hinv).
    apply (Permutation_NoDup (Permutation_sym Hperm)).
    apply (ci_nodes_nodup _ _ _ Hinv).
  - simpl. pose proof (flat_map_blocks_length ord Hord d ch nodes Hinv (ord nodes)) as H.
    rewrite (Permutation_length Hperm) in H. exact H.
Qed.

Lemma transitive_closure_terminates_witness :
  ord_spec (fun l => l) /\
  transitive_closure_opt (fun l => l) [("a", ["b"]); ("b", ["a"])] =
    Some [("a", "b"); ("a", "a"); ("b", "a"); ("b", "b")] /\
  exists out, transitive_closure_opt (fun l => l) [("a", ["b"]); ("b", ["a"])] = Some out.
Proof.
  assert (Hid : ord_spec (fun l => l)) by (intros l _; apply Permutation_refl).
  split; [exact Hid|]. split; [reflexivity|].
  destruct (transitive_closure_terminates (fun l => l) Hid [("a", ["b"]); ("b", ["a"])])
    as [out [H _]].
  exists out. exact H.
Defined.

(* ------------------------------------------------------------------ *)
(** ** Synonym scopes *)

(** C2: on [synonym: "cell growth" SYNONYM []] the scope returned is the
    token [SYNONYM] itself, outside the four scopes of the [go_synonym]
    table (EXACT, RELATED, NARROW, BROAD), not [EXACT]. *)
Theorem parse_synonym_tag_keeps_SYNONYM :
  parse_synonym_tag (chr dq ++ "cell growth" ++ chr dq ++ " SYNONYM []") =
    ("cell growth", "SYNONYM", 0%Z) /\
  ~ In "SYNONYM" ["EXACT"; "RELATED"; "NARROW"; "BROAD"].
Proof.
  split; [reflexivity|]. simpl. intuition discriminate.
Qed.

(** The same regular expression has no word boundary after the scope: an
    unrecognised token that starts with a scope gives that scope. *)
Example parse_synonym_tag_BROADER :
  parse_synonym_tag (chr dq ++ "cell growth" ++ chr dq ++ " BROADER []") =
    ("cell growth", "BROAD", 0%Z).
Proof. reflexivity. Qed.

Example parse_synonym_tag_NARROW :
  parse_synonym_tag (chr dq ++ "cell growth" ++ chr dq ++ " NARROW []") =
    ("cell growth", "NARROW", 0%Z).
Proof. reflexivity. Qed.

(* ------------------------------------------------------------------ *)
(** ** The command line *)

(** C4 (counterexample): three positional arguments do not behave like
    two; they give the usage error. *)
Lemma main_three_args_counterexample :
  main ["build_go_db.py"; "go.obo"; "go.sqlite3"; "extra"] = Exit 1 usage /\
  main ["build_go_db.py"; "go.obo"; "go.sqlite3"] = Build "go.obo" "go.sqlite3" /\
  main ["build_go_db.py"; "go.obo"; "go.sqlite3"; "extra"] <>
  main ["build_go_db.py"; "go.obo"; "go.sqlite3"].
Proof. split; [reflexivity|]. split; [reflexivity|]. discriminate. Qed.

(** C4 (amended): the script runs [build] on its two positional arguments
    when it gets exactly two, and for any other count (zero, one, three or
    more) prints the usage message and exits with status 1. *)
Theorem main_usage_unless_two_args (prog : string) (args : list string) :
  main (prog :: args) =
  match args with
  | [obo_path; db_path] => Build obo_path db_path
  | _ => Exit 1 usage
  end.
Proof.
  destruct args as [|a [|b [|c rest]]]; reflexivity.
Qed.

(* ------------------------------------------------------------------ *)
(** ** Definitions of terms *)

Lemma lstrip_ws_app a b :
  lstrip_ws (a ++ b) =
  match lstrip_ws a with EmptyString => lstrip_ws b | s => (s ++ b)%string end.
Proof.
  induction a as [|c a IH]; simpl; [reflexivity|].
  destruct (is_space c); [exact IH|reflexivity].
Qed.

Lemma string_app_nil_r (s : string) : (s ++ EmptyString)%string = s.
Proof. induction s as [|c s IH]; simpl; [|rewrite IH]; reflexivity. Qed.

Lemma cite_tail_close refs : no_char nl refs = true -> cite_tail (refs ++ "]") = true.
Proof.
  induction refs as [|c refs IH]; [reflexivity|].
  cbn [no_char append cite_tail]. intros H. apply andb_prop in H as [Hc H].
  rewrite Ascii.eqb_sym in Hc. rewrite Hc, (IH H). apply orb_true_r.
Qed.

Lemma strip_citation_no_dq text b :
  no_char dq text = true -> strip_citation (text ++ b)%string = (text ++ strip_citation b)%string.
Proof.
  induction text as [|c text IH]; [reflexivity|].
  cbn [no_char]. intros H. apply andb_prop in H as [Hc H].
  apply negb_true_iff in Hc.
  cbn [append strip_citation]. unfold cite_at. rewrite Ascii.eqb_sym, Hc.
  cbn [andb]. rewrite (IH H). reflexivity.
Qed.

Lemma strip_citation_shape n text refs :
  no_char dq text = true -> String.prefix "[" (lstrip_ws text) = false ->
  no_char nl refs = true ->
  strip_citation (quotes n ++ text ++ chr dq ++ " [" ++ refs ++ "]")%string =
  (quotes n ++ text)%string.
Proof.
  intros Hdq Hbr Hnl.
  assert (Hb : strip_citation (chr dq ++ " [" ++ refs ++ "]")%string = EmptyString).
  { simpl. unfold cite_at. simpl. rewrite (cite_tail_close refs Hnl). reflexivity. }
  assert (Ht : strip_citation (text ++ chr dq ++ " [" ++ refs ++ "]")%string = text).
  { rewrite (strip_citation_no_dq _ _ Hdq), Hb. apply string_app_nil_r. }
  induction n as [|n IH]; [exact Ht|].
  change (quotes (S n) ++ text ++ chr dq ++ " [" ++ refs ++ "]")%string
    with (String dq (quotes n ++ text ++ chr dq ++ " [" ++ refs ++ "]")%string).
  cbn [strip_citation]. rewrite IH.
  assert (Hno : cite_at (String dq (quotes n ++ text ++ chr dq ++ " [" ++ refs ++ "]")%string)
                = false).
  { unfold cite_at. rewrite Ascii.eqb_refl. simpl andb.
    destruct n as [|n].
    - cbn [quotes append]. rewrite lstrip_ws_app.
      destruct (lstrip_ws text) as [|c0 r0] eqn:E.
      + reflexivity.
      + simpl.
        destruct (Ascii.eqb c0 "[") eqn:Ec; [|reflexivity].
        apply Ascii.eqb_eq in Ec. subst c0. simpl in Hbr.
        destruct r0; simpl in Hbr; discriminate.
    - reflexivity. }
  rewrite Hno. reflexivity.
Qed.

Lemma lstrip_dq_quotes n text :
  no_char dq text = true -> lstrip_dq (quotes n ++ text)%string = text.
Proof.
  intros H. induction n as [|n IH]; cbn [quotes append lstrip_dq].
  - destruct text as [|c text]; [reflexivity|].
    cbn [no_char] in H. apply andb_prop in H as [Hc _]. apply negb_true_iff in Hc.
    cbn [lstrip_dq]. rewrite Ascii.eqb_sym, Hc. reflexivity.
  - rewrite Ascii.eqb_refl. exact IH.
Qed.

(** C3: the comment of [build] says the leading and trailing quotes are
    stripped, but only the citation regular expression removes a closing
    quote: a value made of a quote, a text and a closing quote, with no
    citation block, is stored with its closing quote; and [lstrip] removes
    every leading quote, not one. *)
Theorem term_definition_keeps_closing_quote :
  term_definition [("def", Single (chr dq ++ "The thing." ++ chr dq)%string)]
    = Some ("The thing." ++ chr dq)%string /\
  term_definition [("def", Single (quotes 2 ++ "The thing." ++ chr dq ++ " [GOC:x]")%string)]
    = Some "The thing.".
Proof. split; reflexivity. Qed.

(** The clean-up of [def] values: a term without a [def] tag has no definition, an empty
    [def] value is stored as the empty string, and a [def] value made of
    any number of leading quotes, a text, a closing quote and a bracketed
    citation [[refs]] is stored as the trimmed text: the citation block
    with its closing quote is removed, then every leading quote, then the
    surrounding whitespace.  The text has no quote and does not open with
    a bracket, the references have no newline. *)
Theorem term_definition_cleanup (t : stanza) :
  (st_lookup t "def" = None -> term_definition t = None) /\
  (st_lookup t "def" = Some (Single "") -> term_definition t = Some "") /\
  (forall n text refs,
     st_lookup t "def" =
       Some (Single (quotes n ++ text ++ chr dq ++ " [" ++ refs ++ "]")%string) ->
     no_char dq text = true -> String.prefix "[" (lstrip_ws text) = false ->
     no_char nl refs = true ->
     term_definition t = Some (py_strip text)).
Proof.
  unfold term_definition. split; [intros ->; reflexivity|].
  split; [intros ->; reflexivity|].
  intros n text refs Hd Hdq Hbr Hnl. rewrite Hd.
  assert (Hne : exists c r,
    (quotes n ++ text ++ chr dq ++ " [" ++ refs ++ "]")%string = String c r).
  { destruct n as [|n]; [destruct text as [|c r]|]; simpl; eauto. }
  destruct Hne as [c [r Hcr]]. rewrite Hcr. rewrite <- Hcr.
  rewrite (strip_citation_shape n text refs Hdq Hbr Hnl), (lstrip_dq_quotes n text Hdq).
  reflexivity.
Qed.

(* ------------------------------------------------------------------ *)
(** ** The stanza parser *)

Lemma partition_sep_spec s :
  match partition_sep s with
  | Some (a, b) =>
      s = (a ++ ": " ++ b)%string /\
      forall a' b', s = (a' ++ ": " ++ b')%string -> String.length a <= String.length a'
  | None => forall a b, s <> (a ++ ": " ++ b)%string
  end.
Proof.
  induction s as [|c s IH]; simpl.
  - intros a b H. destruct a; discriminate.
  - destruct s as [|c2 s'].
    + intros a b H. destruct a as [|x [|y a]]; discriminate.
    + destruct (Ascii.eqb c ":" && Ascii.eqb c2 " ") eqn:Ec.
      * apply andb_prop in Ec as [E1 E2].
        apply Ascii.eqb_eq in E1, E2. subst. split; [reflexivity|].
        intros a' b' _. simpl. lia.
      * assert (Hfirst : forall b', String c (String c2 s') <> (EmptyString ++ ": " ++ b')%string).
        { intros b' H. simpl in H. injection H as -> -> _.
          rewrite !Ascii.eqb_refl in Ec. discriminate. }
        destruct (partition_sep (String c2 s')) as [[a b]|].
        -- destruct IH as [Heq Hmin]. split; [rewrite Heq; reflexivity|].
           intros [|x a'] b' H; [exfalso; exact (Hfirst b' H)|].
           simpl in H. injection H as -> H. simpl. apply le_n_S. apply (Hmin a' b' H).
        -- intros [|x a'] b' H; [exact (Hfirst b' H)|].
           simpl in H. injection H as -> H. exact (IH a' b' H).
Qed.

Lemma sep_decomp_unique a b a' b' :
  (a ++ ": " ++ b)%string = (a' ++ ": " ++ b')%string ->
  String.length a = String.length a' -> a = a' /\ b = b'.
Proof.
  revert a'. induction a as [|c a IH]; intros [|c' a'] H Hl; simpl in *;
    try discriminate.
  - injection H as H. split; [reflexivity|exact H].
  - injection H as -> H. injection Hl as Hl.
    destruct (IH a' H Hl) as [-> ->]. split; reflexivity.
Qed.

Lemma parse_step_body st raw :
  is_marker (rstrip_nl raw) = false -> parse_step (Some st) raw = ([], Some (store_line st raw)).
Proof.
  unfold is_marker, parse_step, store_line. intros H.
  apply orb_false_elim in H as [H1 H2]. rewrite H1, H2.
  destruct (partition_sep (rstrip_nl raw)) as [[tag value]|]; reflexivity.
Qed.

Lemma parse_lines_body body rest st :
  Forall (fun raw => is_marker (rstrip_nl raw) = false) body ->
  parse_lines (Some st) (body ++ rest) =
  parse_lines (Some (fold_left store_line body st)) rest.
Proof.
  revert st. induction body as [|raw body IH]; intros st Hb; [reflexivity|].
  inversion Hb as [|? ? Hraw Hb']; subst.
  simpl. rewrite (parse_step_body st raw Hraw). simpl. apply IH. exact Hb'.
Qed.

Lemma st_lookup_set st k v x :
  st_lookup (st_set st k v) x = if String.eqb x k then Some v else st_lookup st x.
Proof.
  induction st as [|[k' v'] st IH]; simpl; [reflexivity|].
  destruct (String.eqb k k') eqn:Ekk'.
  - apply String.eqb_eq in Ekk'. subst k'. simpl.
    destruct (String.eqb x k); reflexivity.
  - simpl. rewrite IH. destruct (String.eqb x k') eqn:Exk'; [|reflexivity].
    apply String.eqb_eq in Exk'. subst k'.
    destruct (String.eqb x k) eqn:Exk; [|reflexivity].
    apply String.eqb_eq in Exk. subst. rewrite String.eqb_refl in Ekk'. discriminate.
Qed.

Lemma st_lookup_store_other st t v x :
  x <> t -> st_lookup (store st t v) x = st_lookup st x.
Proof.
  intros Hne. apply String.eqb_neq in Hne.
  unfold store, st_append.
  destruct (mem t multi); [destruct (st_lookup st t) as [[s|vs]|]|];
    rewrite ?st_lookup_set, ?Hne; reflexivity.
Qed.

Lemma st_lookup_store_multi st t v l :
  mem t multi = true ->
  st_lookup st t = Some (Multi l) \/ (st_lookup st t = None /\ l = []) ->
  st_lookup (store st t v) t = Some (Multi (l ++ [v])).
Proof.
  intros Hm Hcur. unfold store, st_append. rewrite Hm.
  destruct Hcur as [H|[H ->]]; rewrite H, st_lookup_set, String.eqb_refl; reflexivity.
Qed.

Lemma st_lookup_store_single st t v :
  mem t multi = false -> st_lookup (store st t v) t = Some (Single v).
Proof.
  intros Hm. unfold store. rewrite Hm, st_lookup_set, String.eqb_refl. reflexivity.
Qed.

Lemma fold_store_multi tag body :
  mem tag multi = true ->
  forall st l,
  st_lookup st tag = Some (Multi l) \/ (st_lookup st tag = None /\ l = []) ->
  let st' := fold_left store_line body st in
  st_lookup st' tag = Some (Multi (l ++ tag_values tag body)) \/
  (st_lookup st' tag = None /\ l ++ tag_values tag body = []).
Proof.
  intros Hm. induction body as [|raw body IH]; intros st l Hcur; simpl.
  - rewrite app_nil_r. exact Hcur.
  - assert (Hsl : store_line st raw =
      match partition_sep (rstrip_nl raw) with
      | Some (t, value) => store st t (clean_value value)
      | None => st
      end) by reflexivity.
    rewrite Hsl. destruct (partition_sep (rstrip_nl raw)) as [[t v]|].
    + destruct (String.eqb t tag) eqn:Et.
      * apply String.eqb_eq in Et. subst t.
        replace (l ++ clean_value v :: tag_values tag body)
          with ((l ++ [clean_value v]) ++ tag_values tag body)
          by (rewrite <- app_assoc; reflexivity).
        apply IH. left.
        apply st_lookup_store_multi; assumption.
      * apply IH. apply String.eqb_neq in Et.
        rewrite st_lookup_store_other; [exact Hcur|]. intros ->. apply Et. reflexivity.
    + apply IH. exact Hcur.
Qed.

Lemma fold_store_single tag body :
  mem tag multi = false ->
  forall st,
  st_lookup (fold_left store_line body st) tag =
  match rev (tag_values tag body) with
  | v :: _ => Some (Single v)
  | [] => st_lookup st tag
  end.
Proof.
  intros Hm. induction body as [|raw body IH]; intros st; simpl; [reflexivity|].
  rewrite IH. unfold store_line. destruct (partition_sep (rstrip_nl raw)) as [[t v]|];
    [|reflexivity].
  destruct (String.eqb t tag) eqn:Et.
  - apply String.eqb_eq in Et. subst t. simpl.
    destruct (rev (tag_values tag body)) as [|w ws]; simpl;
      [apply st_lookup_store_single; exact Hm|reflexivity].
  - apply String.eqb_neq in Et.
    destruct (rev (tag_values tag body)); [|reflexivity].
    apply st_lookup_store_other. intros ->. apply Et. reflexivity.
Qed.

Lemma parse_step_marker st raw :
  is_marker (rstrip_nl raw) = true -> fst (parse_step (Some st) raw) = [st].
Proof.
  unfold is_marker, parse_step. intros H.
  destruct (startswith (rstrip_nl raw) "[Term]"); [reflexivity|].
  simpl in H. rewrite H. reflexivity.
Qed.

Lemma parse_step_count state raw :
  length (fst (parse_step state raw)) + length (yield_opt (snd (parse_step state raw))) =
  length (yield_opt state) + (if startswith (rstrip_nl raw) "[Term]" then 1 else 0).
Proof.
  unfold parse_step. cbv zeta.
  destruct (startswith (rstrip_nl raw) "[Term]"); simpl; [lia|].
  destruct (startswith (rstrip_nl raw) "[" && endswith (rstrip_nl raw) "]"); simpl; [lia|].
  destruct state as [st|]; [destruct (partition_sep (rstrip_nl raw)) as [[t v]|]|];
    reflexivity.
Qed.

(** Reading [pre] first: the stanzas yielded while reading it, then the
    run on the rest from the state it leaves; every [[Term]] line of [pre]
    accounts for one stanza, yielded or still open. *)
Lemma parse_lines_app state pre l :
  exists out state',
    parse_lines state (pre ++ l) = out ++ parse_lines state' l /\
    length out + length (yield_opt state') =
    length (yield_opt state) +
    length (filter (fun raw => startswith (rstrip_nl raw) "[Term]") pre).
Proof.
  revert state. induction pre as [|raw pre IH]; intros state.
  - exists [], state. split; [reflexivity|]. simpl. lia.
  - simpl (parse_lines state ((raw :: pre) ++ l)).
    pose proof (parse_step_count state raw) as Hc.
    destruct (parse_step state raw) as [o s1]. simpl in Hc.
    destruct (IH s1) as [out [st' [E L]]].
    exists (o ++ out), st'. split; [rewrite E, app_assoc; reflexivity|].
    cbn [filter]. rewrite length_app.
    destruct (startswith (rstrip_nl raw) "[Term]"); simpl in *; lia.
Qed.

(** C7: for any [[Term]] line of the file, wherever it stands (after any
    lines [pre]), whose stanza is made of the lines [body] (none of them a
    stanza marker) and closed by a marker or by the end of the file:
    [parse_obo] yields a dict for it, preceded by exactly one dict per
    [[Term]] line of [pre]; in that dict a tag of [multi] that occurs
    N >= 1 times in [body] holds the list of its N cleaned values in file
    order, and a tag outside [multi] holds the value of its last
    occurrence. *)
Theorem parse_obo_tag_occurrences (pre body rest : list string)
  (Hbody : Forall (fun raw => is_marker (rstrip_nl raw) = false) body)
  (Hrest : match rest with [] => True | r :: _ => is_marker (rstrip_nl r) = true end) :
  exists before st others,
    parse_obo (pre ++ "[Term]" :: body ++ rest) = before ++ st :: others /\
    length before = length (filter (fun raw => startswith (rstrip_nl raw) "[Term]") pre) /\
    forall tag,
    (mem tag multi = true -> tag_values tag body <> [] ->
       st_lookup st tag = Some (Multi (tag_values tag body))) /\
    (mem tag multi = false -> forall vs v, tag_values tag body = vs ++ [v] ->
       st_lookup st tag = Some (Single v)).
Proof.
  unfold parse_obo.
  destruct (parse_lines_app None pre ("[Term]" :: body ++ rest)) as [out [s0 [E L]]].
  rewrite E. cbn [parse_lines].
  assert (Es : parse_step s0 "[Term]" = (yield_opt s0, Some [])) by reflexivity.
  rewrite Es. cbv beta iota.
  rewrite (parse_lines_body body rest _ Hbody).
  set (st := fold_left store_line body []).
  assert (Hfirst : exists others, parse_lines (Some st) rest = st :: others).
  { destruct rest as [|r rest'].
    - exists []. reflexivity.
    - simpl. pose proof (parse_step_marker st r Hrest) as Hm.
      destruct (parse_step (Some st) r) as [o state']. simpl in Hm. subst o.
      eexists. reflexivity. }
  destruct Hfirst as [others Hothers].
  exists (out ++ yield_opt s0), st, others.
  split; [rewrite Hothers, app_assoc; reflexivity|].
  split; [rewrite length_app; simpl in L; lia|].
  intros tag. split.
  - intros Hm Hne.
    destruct (fold_store_multi tag body Hm [] [] (or_intror (conj eq_refl eq_refl)))
      as [H|[_ H]].
    + exact H.
    + exfalso. exact (Hne H).
  - intros Hm vs v Hv. unfold st. rewrite (fold_store_single tag body Hm), Hv.
    rewrite rev_app_distr. reflexivity.
Qed.

Lemma parse_obo_tag_occurrences_witness :
  Forall (fun raw => is_marker (rstrip_nl raw) = false)
    ["id: GO:0000001"; "is_a: GO:0000002"; "name: first";
     "is_a: GO:0000003 ! a comment"; "name: second"] /\
  exists before st others,
    parse_obo (["format-version: 1.2"; "[Term]"; "id: GO:0000005"; "is_a: GO:0000009"] ++
               "[Term]" :: ["id: GO:0000001"; "is_a: GO:0000002"; "name: first";
                             "is_a: GO:0000003 ! a comment"; "name: second"]
               ++ ["[Typedef]"]) = before ++ st :: others /\
    length before = 1 /\
    st_lookup st "is_a" = Some (Multi ["GO:0000002"; "GO:0000003"]) /\
    st_lookup st "name" = Some (Single "second").
Proof.
  assert (Hb : Forall (fun raw => is_marker (rstrip_nl raw) = false)
    ["id: GO:0000001"; "is_a: GO:0000002"; "name: first";
     "is_a: GO:0000003 ! a comment"; "name: second"]) by repeat constructor.
  split; [exact Hb|].
  destruct (parse_obo_tag_occurrences
              ["format-version: 1.2"; "[Term]"; "id: GO:0000005"; "is_a: GO:0000009"]
              _ ["[Typedef]"] Hb eq_refl)
    as [before [st [others [Hp [L H]]]]].
  exists before, st, others. split; [exact Hp|]. split; [exact L|]. split.
  - apply (proj1 (H "is_a")); [reflexivity|discriminate].
  - apply (proj2 (H "name") eq_refl ["first"]). reflexivity.
Defined.

(** C10: inside an open [[Term]] stanza a body line (not a marker) with no
    [": "] leaves the stanza as it is, nothing being stored or reported;
    a line with a [": "] is stored under the text before its first
    [": "], with the cleaned text after it as value. *)
Theorem parse_step_separator (st : stanza) (raw : string)
  (Hbody : is_marker (rstrip_nl raw) = false) :
  ((forall a b, rstrip_nl raw <> (a ++ ": " ++ b)%string) ->
     parse_step (Some st) raw = ([], Some st)) /\
  (forall tag value, rstrip_nl raw = (tag ++ ": " ++ value)%string ->
     (forall a b, rstrip_nl raw = (a ++ ": " ++ b)%string ->
        String.length tag <= String.length a) ->
     parse_step (Some st) raw = ([], Some (store st tag (clean_value value)))).
Proof.
  rewrite (parse_step_body st raw Hbody). unfold store_line.
  pose proof (partition_sep_spec (rstrip_nl raw)) as Hspec.
  destruct (partition_sep (rstrip_nl raw)) as [[a b]|].
  - destruct Hspec as [Heq Hmin]. split.
    + intros Hno. exfalso. exact (Hno a b Heq).
    + intros tag value Htv Hmin'.
      pose proof (Hmin tag value Htv). pose proof (Hmin' a b Heq).
      rewrite Heq in Htv.
      destruct (sep_decomp_unique a b tag value Htv ltac:(lia)) as [-> ->].
      reflexivity.
  - split; [reflexivity|]. intros tag value Htv _. exfalso. exact (Hspec tag value Htv).
Qed.

Lemma parse_step_separator_witness :
  is_marker (rstrip_nl "is_a:GO:0000001") = false /\
  parse_step (Some [("id", Single "GO:0000001")]) "is_a:GO:0000001" =
    ([], Some [("id", Single "GO:0000001")]).
Proof.
  split; [reflexivity|].
  assert (E : partition_sep (rstrip_nl "is_a:GO:0000001") = None) by reflexivity.
  pose proof (partition_sep_spec (rstrip_nl "is_a:GO:0000001")) as H.
  rewrite E in H.
  apply (proj1 (parse_step_separator [("id", Single "GO:0000001")] "is_a:GO:0000001"
                  eq_refl)).
  exact H.
Defined.

(* ------------------------------------------------------------------ *)
(** ** Synonym rows, parent tables and the classification *)

Lemma filter_map_all {A B} (f : B -> bool) (g : A -> B) (l : list A) :
  (forall x, f (g x) = true) -> filter f (map g l) = map g l.
Proof.
  intros Hf. induction l as [|x l IH]; simpl; [reflexivity|].
  rewrite Hf, IH. reflexivity.
Qed.

Lemma filter_map_none {A B} (f : B -> bool) (g : A -> B) (l : list A) :
  (forall x, f (g x) = false) -> filter f (map g l) = [].
Proof.
  intros Hf. induction l as [|x l IH]; simpl; [reflexivity|].
  rewrite Hf, IH. reflexivity.
Qed.

(** The rows of one term flagged [like_go_id = 1] are its [alt_id] rows. *)
Lemma syn_rows_of_term_like t :
  filter (fun r => Z.eqb (sr_like_go_id r) 1) (syn_rows_of_term t) =
  map (fun a => mk_syn_row (get_str t "id" "") a (Some a) "EXACT" 1) (get_list t "alt_id").
Proof.
  unfold syn_rows_of_term. rewrite filter_app.
  rewrite filter_map_none.
  - rewrite filter_map_all; reflexivity.
  - intros raw. destruct (parse_synonym_tag raw) as [[label scope] n]. reflexivity.
Qed.


Lemma dd_append_keys k v m k' l :
  In (k', l) (dd_append k v m) -> k' = k \/ exists l', In (k', l') m.
Proof.
  induction m as [|[k0 l0] m IH]; simpl; intros H.
  - destruct H as [H|[]]. injection H as <- _. left; reflexivity.
  - destruct (String.eqb k k0) eqn:E.
    + destruct H as [H|H].
      * injection H as <- _. right. exists l0. left. reflexivity.
      * right. exists l. right. exact H.
    + destruct H as [H|H].
      * injection H as <- <-. right. exists l0. left. reflexivity.
      * destruct (IH H) as [Hk|[l' Hl']]; [left; exact Hk|].
        right. exists l'. right. exact Hl'.
Qed.

Lemma add_edge_ok active ps n go_id p rel :
  In p active -> parts_ok active ps -> parts_ok active (add_edge ps n go_id p rel).
Proof.
  intros Hp Hok.
  assert (Hnew : forall q : part,
    (forall c p' r, In (c, p', r) (parent_rows q) -> In p' active) /\
    (forall p' l, In (p', l) (direct_children q) -> In p' active) ->
    (forall c p' r, In (c, p', r) (parent_rows q ++ [(go_id, p, rel)]) -> In p' active) /\
    (forall p' l, In (p', l) (dd_append p go_id (direct_children q)) -> In p' active)).
  { intros q [Hr Hc]. split.
    - intros c p' r Hin. apply in_app_or in Hin. destruct Hin as [Hin|[Hin|[]]].
      + exact (Hr _ _ _ Hin).
      + injection Hin as _ <- _. exact Hp.
    - intros p' l Hin. destruct (dd_append_keys _ _ _ _ _ Hin) as [->|[l' Hl']].
      + exact Hp.
      + exact (Hc _ _ Hl'). }
  intros m. unfold add_edge.
  destruct n, m; simpl; first [apply Hnew; apply (Hok BP) | apply (Hok BP)
    | apply Hnew; apply (Hok MF) | apply (Hok MF) | apply Hnew; apply (Hok CC)
    | apply (Hok CC)].
Qed.

Lemma is_a_entry_ok active n go_id ps raw ps' :
  is_a_entry active n go_id ps raw = Ok ps' -> parts_ok active ps -> parts_ok active ps'.
Proof.
  unfold is_a_entry. destruct (py_split raw) as [|p rest]; [discriminate|].
  intros H Hok. injection H as <-.
  destruct (mem p active) eqn:Hm; [|exact Hok].
  apply add_edge_ok; [apply mem_In; exact Hm | exact Hok].
Qed.

Lemma rel_entry_ok active n go_id ps raw :
  parts_ok active ps -> parts_ok active (rel_entry active n go_id ps raw).
Proof.
  unfold rel_entry. intros Hok.
  destruct (py_split raw) as [|r [|p rest]]; try exact Hok.
  destruct (mem p active) eqn:Hm; [|exact Hok].
  apply add_edge_ok; [apply mem_In; exact Hm | exact Hok].
Qed.

Lemma fold_result_inv {A B} (P : A -> Prop) (f : A -> B -> result A) (l : list B) :
  (forall a b a', f a b = Ok a' -> P a -> P a') ->
  forall a a', fold_result f l a = Ok a' -> P a -> P a'.
Proof.
  intros Hf. induction l as [|b l IH]; simpl; intros a a' H Ha.
  - injection H as <-. exact Ha.
  - destruct (f a b) as [a1|e] eqn:E; [|discriminate].
    exact (IH a1 a' H (Hf _ _ _ E Ha)).
Qed.

Lemma fold_left_inv {A B} (P : A -> Prop) (f : A -> B -> A) (l : list B) :
  (forall a b, P a -> P (f a b)) -> forall a, P a -> P (fold_left f l a).
Proof.
  intros Hf. induction l as [|b l IH]; simpl; intros a Ha; [exact Ha|].
  apply IH, Hf, Ha.
Qed.

Lemma collect_term_ok active ps t ps' :
  collect_term active ps t = Ok ps' -> parts_ok active ps -> parts_ok active ps'.
Proof.
  unfold collect_term. intros H Hok.
  destruct (ns_of_short _) as [n|]; [|injection H as <-; exact Hok].
  destruct (fold_result _ _ ps) as [ps1|e] eqn:E; [|discriminate].
  injection H as <-.
  apply fold_left_inv; [intros a b; apply rel_entry_ok|].
  exact (fold_result_inv _ _ _ (is_a_entry_ok active n _) _ _ E Hok).
Qed.

Lemma collect_edges_ok terms ps :
  collect_edges terms = Ok ps -> parts_ok (active_ids terms) ps.
Proof.
  unfold collect_edges. intros H.
  refine (fold_result_inv _ _ _ (collect_term_ok (active_ids terms)) _ _ H _).
  intros n. destruct n; simpl; split; intros; contradiction.
Qed.

Lemma reach_source_key d a t : reach d a t -> exists l, In (a, l) d.
Proof.
  induction 1 as [x y [l [Hl _]]|x y z _ IH _ _]; [exists l; exact Hl | exact IH].
Qed.

Lemma classify_filter l :
  classify l =
  (filter (fun s => startswith (get_str s "id" "") "GO:" && negb (is_obsolete_true s)) l,
   filter (fun s => startswith (get_str s "id" "") "GO:" && is_obsolete_true s) l).
Proof.
  induction l as [|s l IH]; simpl; [reflexivity|]. rewrite IH.
  destruct (startswith (get_str s "id" "") "GO:"), (is_obsolete_true s); reflexivity.
Qed.

(** C8: for every active term, each [alt_id] value yields a [go_synonym]
    row with the alt identifier as both synonym and secondary column, scope
    EXACT and [like_go_id] 1; the rows of a term with [like_go_id] 1 are
    exactly one per [alt_id] value, in order, with no test against the
    active identifiers. *)
Theorem alt_id_synonym_rows (stanzas : list stanza) (t : stanza) (alt : string)
  (Ht : In t (fst (classify stanzas))) (Halt : In alt (get_list t "alt_id")) :
  In (mk_syn_row (get_str t "id" "") alt (Some alt) "EXACT" 1)
     (syn_rows (fst (classify stanzas))) /\
  filter (fun r => Z.eqb (sr_like_go_id r) 1) (syn_rows_of_term t) =
  map (fun a => mk_syn_row (get_str t "id" "") a (Some a) "EXACT" 1) (get_list t "alt_id").
Proof.
  split; [|apply syn_rows_of_term_like].
  unfold syn_rows. apply in_flat_map. exists t. split; [exact Ht|].
  unfold syn_rows_of_term. apply in_or_app. right.
  apply in_map_iff. exists alt. split; [reflexivity | exact Halt].
Qed.

Lemma alt_id_synonym_rows_witness :
  ~ In "GO:0000099"
      (active_ids (fst (classify [[("id", Single "GO:0000001");
                                  ("alt_id", Multi ["GO:0000099"])]]))) /\
  In (mk_syn_row "GO:0000001" "GO:0000099" (Some "GO:0000099") "EXACT" 1)
     (syn_rows (fst (classify [[("id", Single "GO:0000001");
                               ("alt_id", Multi ["GO:0000099"])]]))).
Proof.
  split; [apply mem_false; reflexivity|].
  exact (proj1 (alt_id_synonym_rows
    [[("id", Single "GO:0000001"); ("alt_id", Multi ["GO:0000099"])]]
    [("id", Single "GO:0000001"); ("alt_id", Multi ["GO:0000099"])]
    "GO:0000099"
    ltac:(vm_compute; left; reflexivity) ltac:(vm_compute; left; reflexivity))).
Defined.

(** C5: an [is_a] or [relationship] entry whose parent is not an active
    identifier leaves the parent tables unchanged and raises nothing; so
    after the whole loop every parent of a row of [parent_rows], every key
    of [direct_children] and every ancestor of a closure pair, in every
    partition, is an active identifier. *)
Theorem inactive_parent_dropped (terms : list stanza) :
  (forall n go_id ps raw p rest, py_split raw = p :: rest ->
     ~ In p (active_ids terms) ->
     is_a_entry (active_ids terms) n go_id ps raw = Ok ps) /\
  (forall n go_id ps raw r p rest, py_split raw = r :: p :: rest ->
     ~ In p (active_ids terms) ->
     rel_entry (active_ids terms) n go_id ps raw = ps) /\
  (forall ps, collect_edges terms = Ok ps -> forall n,
     (forall c p r, In (c, p, r) (parent_rows (get_part ps n)) -> In p (active_ids terms)) /\
     (forall p l, In (p, l) (direct_children (get_part ps n)) -> In p (active_ids terms)) /\
     (forall ord, ord_spec ord -> forall a t,
        In (a, t) (transitive_closure ord (direct_children (get_part ps n))) ->
        In a (active_ids terms))).
Proof.
  split; [|split].
  - intros n go_id ps raw p rest Hs Hp. unfold is_a_entry. rewrite Hs.
    apply mem_false in Hp. rewrite Hp. reflexivity.
  - intros n go_id ps raw r p rest Hs Hp. unfold rel_entry. rewrite Hs.
    apply mem_false in Hp. rewrite Hp. reflexivity.
  - intros ps H n. destruct (collect_edges_ok terms ps H n) as [Hr Hc].
    split; [exact Hr|]. split; [exact Hc|].
    intros ord Hord a t Hin.
    apply (proj2 (transitive_closure_reach ord _ Hord) a t) in Hin.
    destruct (reach_source_key _ _ _ Hin) as [l Hl]. exact (Hc _ _ Hl).
Qed.

Lemma inactive_parent_dropped_witness :
  py_split "GO:0000009 ! unknown" = ["GO:0000009"; "!"; "unknown"] /\
  ~ In "GO:0000009" (active_ids [[("id", Single "GO:0000001")]]) /\
  is_a_entry (active_ids [[("id", Single "GO:0000001")]]) BP "GO:0000001"
    empty_parts "GO:0000009 ! unknown" = Ok empty_parts.
Proof.
  assert (Hs : py_split "GO:0000009 ! unknown" = ["GO:0000009"; "!"; "unknown"])
    by reflexivity.
  assert (Hn : ~ In "GO:0000009" (active_ids [[("id", Single "GO:0000001")]]))
    by (apply mem_false; reflexivity).
  split; [exact Hs|]. split; [exact Hn|].
  exact (proj1 (inactive_parent_dropped [[("id", Single "GO:0000001")]])
           BP "GO:0000001" empty_parts _ _ _ Hs Hn).
Defined.

(** C6, counterexample: a [[Term]] stanza marked [is_obsolete: true] whose
    id does not start with [GO:] is put in neither set, not in the
    obsolete one. *)
Lemma obsolete_non_GO_counterexample :
  exists s, parse_obo ["[Term]"; "id: FOO:0000001"; "is_obsolete: true"] = [s] /\
    is_obsolete_true s = true /\ classify [s] = ([], []).
Proof.
  eexists. split; [reflexivity|]. split; reflexivity.
Qed.

(** C6: a stanza whose id starts with [GO:] is classified as obsolete when
    its [is_obsolete] value is exactly [true] and as active otherwise
    (other stanzas are in neither set); the active terms all have a value
    other than [true]; and a stanza whose value is [true] can be removed
    from the input without changing the active terms, the active
    identifiers, the term rows, the synonym rows or the parent tables. *)
Theorem obsolete_stanza_excluded (pre post : list stanza) (s : stanza) :
  (forall l,
     fst (classify l) =
       filter (fun x => startswith (get_str x "id" "") "GO:" && negb (is_obsolete_true x)) l /\
     snd (classify l) =
       filter (fun x => startswith (get_str x "id" "") "GO:" && is_obsolete_true x) l) /\
  (forall l t, In t (fst (classify l)) -> is_obsolete_true t = false) /\
  (startswith (get_str s "id" "") "GO:" = true ->
     (is_obsolete_true s = true -> In s (snd (classify (pre ++ s :: post)))) /\
     (is_obsolete_true s = false -> In s (fst (classify (pre ++ s :: post))))) /\
  (is_obsolete_true s = true ->
     fst (classify (pre ++ s :: post)) = fst (classify (pre ++ post)) /\
     active_ids (fst (classify (pre ++ s :: post))) = active_ids (fst (classify (pre ++ post))) /\
     term_rows (fst (classify (pre ++ s :: post))) = term_rows (fst (classify (pre ++ post))) /\
     syn_rows (fst (classify (pre ++ s :: post))) = syn_rows (fst (classify (pre ++ post))) /\
     collect_edges (fst (classify (pre ++ s :: post))) =
       collect_edges (fst (classify (pre ++ post)))).
Proof.
  assert (Hc : forall l,
     fst (classify l) =
       filter (fun x => startswith (get_str x "id" "") "GO:" && negb (is_obsolete_true x)) l /\
     snd (classify l) =
       filter (fun x => startswith (get_str x "id" "") "GO:" && is_obsolete_true x) l).
  { intros l. rewrite classify_filter. split; reflexivity. }
  split; [exact Hc|]. split; [|split].
  - intros l t Hin. rewrite (proj1 (Hc l)) in Hin. apply filter_In in Hin.
    destruct Hin as [_ Hb]. apply andb_prop in Hb. destruct Hb as [_ Hb].
    destruct (is_obsolete_true t); [discriminate | reflexivity].
  - intros Hgo. split; intros Hob.
    + rewrite (proj2 (Hc _)). apply filter_In. split.
      * apply in_or_app. right. left. reflexivity.
      * rewrite Hgo, Hob. reflexivity.
    + rewrite (proj1 (Hc _)). apply filter_In. split.
      * apply in_or_app. right. left. reflexivity.
      * rewrite Hgo, Hob. reflexivity.
  - intros Hob.
    assert (E : fst (classify (pre ++ s :: post)) = fst (classify (pre ++ post))).
    { rewrite (proj1 (Hc _)), (proj1 (Hc (pre ++ post))), !filter_app. simpl.
      rewrite Hob, andb_false_r. reflexivity. }
    rewrite E. repeat split.
Qed.

Lemma obsolete_stanza_excluded_witness :
  is_obsolete_true [("id", Single "GO:0000002"); ("is_obsolete", Single "true")] = true /\
  active_ids (fst (classify ([[("id", Single "GO:0000001")]] ++
    [("id", Single "GO:0000002"); ("is_obsolete", Single "true")] :: []))) =
  active_ids (fst (classify ([[("id", Single "GO:0000001")]] ++ []))).
Proof.
  assert (Hob : is_obsolete_true
    [("id", Single "GO:0000002"); ("is_obsolete", Single "true")] = true) by reflexivity.
  split; [exact Hob|].
  exact (proj1 (proj2 (proj2 (proj2 (proj2 (obsolete_stanza_excluded
    [[("id", Single "GO:0000001")]] []
    [("id", Single "GO:0000002"); ("is_obsolete", Single "true")]))) Hob))).
Defined.

(* ------------------------------------------------------------------ *)
(** ** More on [parse_obo] *)

Lemma parse_lines_length state lines :
  length (parse_lines state lines) =
  length (yield_opt state) +
  length (filter (fun raw => startswith (rstrip_nl raw) "[Term]") lines).
Proof.
  revert state. induction lines as [|raw lines IH]; intros state; simpl; [lia|].
  unfold parse_step.
  destruct (startswith (rstrip_nl raw) "[Term]") eqn:Et.
  - rewrite length_app, IH. simpl. lia.
  - destruct (startswith (rstrip_nl raw) "[" && endswith (rstrip_nl raw) "]").
    + rewrite length_app, IH. simpl. lia.
    + destruct state as [st|].
      * destruct (partition_sep (rstrip_nl raw)) as [[tag value]|];
          simpl; rewrite IH; simpl; lia.
      * simpl. rewrite IH. simpl. lia.
Qed.

(** [parse_obo] yields exactly one dict per line that starts with
    [[Term]] (after its newline is removed): neither more, for the other
    stanza kinds, nor fewer. *)
Theorem parse_obo_one_per_term (lines : list string) :
  length (parse_obo lines) =
  length (filter (fun raw => startswith (rstrip_nl raw) "[Term]") lines).
Proof. unfold parse_obo. rewrite parse_lines_length. reflexivity. Qed.

Lemma parse_lines_none pre rest :
  Forall (fun raw => startswith (rstrip_nl raw) "[Term]" = false) pre ->
  parse_lines None (pre ++ rest) = parse_lines None rest.
Proof.
  induction 1 as [|raw pre Hraw _ IH]; [reflexivity|].
  simpl. unfold parse_step. rewrite Hraw.
  destruct (startswith (rstrip_nl raw) "[" && endswith (rstrip_nl raw) "]");
    exact IH.
Qed.

(** Lines before the first [[Term]] (the header, [[Typedef]] stanzas) are
    ignored: they change nothing in what [parse_obo] yields. *)
Theorem parse_obo_skips_outside (pre rest : list string)
  (Hpre : Forall (fun raw => startswith (rstrip_nl raw) "[Term]" = false) pre) :
  parse_obo (pre ++ rest) = parse_obo rest.
Proof. apply parse_lines_none. exact Hpre. Qed.

Lemma parse_obo_skips_outside_witness :
  parse_obo (["format-version: 1.2"; "[Typedef]"; "id: part_of"; "name: part of"]
             ++ ["[Term]"; "id: GO:0000001"]) =
  parse_obo ["[Term]"; "id: GO:0000001"].
Proof. apply parse_obo_skips_outside. repeat constructor. Defined.

(** A stanza marker other than [[Term]] (such as [[Typedef]]) closes the
    open term, wherever that term stands in the file (after any lines
    [pre]): the term is yielded with the lines of its body stored, after
    one dict per [[Term]] line of [pre], and the lines after the marker up
    to the next [[Term]] are dropped. *)
Theorem parse_obo_term_then_other (pre body mid rest : list string) (m : string)
  (Hbody : Forall (fun raw => is_marker (rstrip_nl raw) = false) body)
  (Hm : is_marker (rstrip_nl m) = true)
  (Hmt : startswith (rstrip_nl m) "[Term]" = false)
  (Hmid : Forall (fun raw => startswith (rstrip_nl raw) "[Term]" = false) mid) :
  exists before,
    parse_obo (pre ++ "[Term]" :: body ++ m :: mid ++ rest) =
    before ++ fold_left store_line body [] :: parse_obo rest /\
    length before = length (filter (fun raw => startswith (rstrip_nl raw) "[Term]") pre).
Proof.
  unfold parse_obo.
  destruct (parse_lines_app None pre ("[Term]" :: body ++ m :: mid ++ rest))
    as [out [s0 [E L]]].
  rewrite E. cbn [parse_lines].
  assert (Es : parse_step s0 "[Term]" = (yield_opt s0, Some [])) by reflexivity.
  rewrite Es. cbv beta iota.
  rewrite (parse_lines_body body _ _ Hbody). simpl.
  unfold parse_step at 1. rewrite Hmt.
  unfold is_marker in Hm. rewrite Hmt in Hm. simpl in Hm. rewrite Hm.
  simpl. rewrite (parse_lines_none mid rest Hmid).
  exists (out ++ yield_opt s0). split.
  - rewrite <- app_assoc. reflexivity.
  - rewrite length_app. simpl in L. lia.
Qed.

Lemma parse_obo_term_then_other_witness :
  exists before,
    parse_obo (["[Term]"; "id: GO:0000001"] ++ "[Term]" :: ["id: GO:0000002"; "name: b"] ++
               "[Typedef]" :: ["id: part_of"] ++ ["[Term]"; "id: GO:0000003"]) =
    before ++ fold_left store_line ["id: GO:0000002"; "name: b"] [] ::
      parse_obo ["[Term]"; "id: GO:0000003"] /\
    length before = 1.
Proof.
  destruct (parse_obo_term_then_other ["[Term]"; "id: GO:0000001"]
              ["id: GO:0000002"; "name: b"] ["id: part_of"] ["[Term]"; "id: GO:0000003"]
              "[Typedef]")
    as [before [Hp L]]; [repeat constructor | reflexivity | reflexivity | repeat constructor|].
  exists before. split; [exact Hp | exact L].
Defined.

Lemma store_shape st tag value :
  stanza_shape st -> stanza_shape (store st tag value).
Proof.
  intros Hs k v Hk.
  destruct (String.eqb_spec k tag) as [->|Hne].
  - destruct (mem tag multi) eqn:Hm.
    + destruct (st_lookup st tag) as [[s|vs]|] eqn:Eo.
      * pose proof (Hs _ _ Eo) as H. rewrite Hm in H.
        destruct H as [vs [Hv _]]. discriminate.
      * rewrite (st_lookup_store_multi st tag value vs Hm (or_introl Eo)) in Hk.
        injection Hk as <-. exists (vs ++ [value]). split; [reflexivity|].
        destruct vs; discriminate.
      * rewrite (st_lookup_store_multi st tag value [] Hm (or_intror (conj Eo eq_refl))) in Hk.
        injection Hk as <-. exists [value]. split; [reflexivity | discriminate].
    + rewrite (st_lookup_store_single st tag value Hm) in Hk.
      injection Hk as <-. exists value. reflexivity.
  - rewrite (st_lookup_store_other st tag value k Hne) in Hk. exact (Hs _ _ Hk).
Qed.

Lemma parse_lines_shape state lines :
  (forall st, state = Some st -> stanza_shape st) ->
  forall st, In st (parse_lines state lines) -> stanza_shape st.
Proof.
  assert (Hnil : stanza_shape []) by (intros k v H; discriminate).
  revert state. induction lines as [|raw lines IH]; intros state Hst st Hin.
  - destruct state as [s|]; simpl in Hin; [|contradiction].
    destruct Hin as [<-|[]]. exact (Hst _ eq_refl).
  - simpl in Hin. unfold parse_step in Hin.
    assert (Hy : forall x, In x (yield_opt state) -> stanza_shape x).
    { intros x Hx. destruct state; simpl in Hx; [|contradiction].
      destruct Hx as [<-|[]]. exact (Hst _ eq_refl). }
    destruct (startswith (rstrip_nl raw) "[Term]").
    + apply in_app_or in Hin. destruct Hin as [Hin|Hin]; [exact (Hy _ Hin)|].
      refine (IH _ _ _ Hin). intros s' E. injection E as <-. exact Hnil.
    + destruct (startswith (rstrip_nl raw) "[" && endswith (rstrip_nl raw) "]").
      * apply in_app_or in Hin. destruct Hin as [Hin|Hin]; [exact (Hy _ Hin)|].
        refine (IH _ _ _ Hin). discriminate.
      * destruct state as [s|].
        -- destruct (partition_sep (rstrip_nl raw)) as [[tag value]|];
             simpl in Hin; refine (IH _ _ _ Hin); intros s' E; injection E as <-.
           ++ apply store_shape. exact (Hst _ eq_refl).
           ++ exact (Hst _ eq_refl).
        -- simpl in Hin. refine (IH _ _ _ Hin). discriminate.
Qed.

(** In every dict [parse_obo] yields, a tag of [multi] holds a non-empty
    list of values and every other tag holds a single string. *)
Theorem parse_obo_value_shape (lines : list string) (st : stanza) (k : string) (v : tagval)
  (Hst : In st (parse_obo lines)) (Hk : st_lookup st k = Some v) :
  (mem k multi = true -> exists vs, v = Multi vs /\ vs <> []) /\
  (mem k multi = false -> exists s, v = Single s).
Proof.
  pose proof (parse_lines_shape None lines ltac:(discriminate) st Hst k v Hk) as H.
  destruct (mem k multi); split; intros E; first [discriminate | exact H].
Qed.

Lemma parse_obo_value_shape_witness :
  exists st,
    parse_obo ["[Term]"; "id: GO:0000001"; "is_a: GO:0000002"] = [st] /\
    st_lookup st "is_a" = Some (Multi ["GO:0000002"]) /\
    ((mem "is_a" multi = true -> exists vs, Multi ["GO:0000002"] = Multi vs /\ vs <> []) /\
     (mem "is_a" multi = false -> exists s, Multi ["GO:0000002"] = Single s)).
Proof.
  eexists. split; [reflexivity|]. split; [reflexivity|].
  apply (parse_obo_value_shape ["[Term]"; "id: GO:0000001"; "is_a: GO:0000002"]
           [("id", Single "GO:0000001"); ("is_a", Multi ["GO:0000002"])]);
    [left; reflexivity | reflexivity].
Defined.

(* ------------------------------------------------------------------ *)
(** ** Comments in values *)

Lemma list_ascii_of_string_app a b :
  list_ascii_of_string (a ++ b) = list_ascii_of_string a ++ list_ascii_of_string b.
Proof. induction a as [|c a IH]; simpl; [|rewrite IH]; reflexivity. Qed.

Lemma string_of_list_ascii_app l1 l2 :
  string_of_list_ascii (l1 ++ l2) =
  (string_of_list_ascii l1 ++ string_of_list_ascii l2)%string.
Proof. induction l1 as [|c l1 IH]; simpl; [|rewrite IH]; reflexivity. Qed.

Lemma string_rev_app a b :
  string_rev (a ++ b) = (string_rev b ++ string_rev a)%string.
Proof.
  unfold string_rev. rewrite list_ascii_of_string_app, rev_app_distr.
  apply string_of_list_ascii_app.
Qed.

Lemma all_space_forallb s : all_space s = forallb is_space (list_ascii_of_string s).
Proof. induction s as [|c s IH]; simpl; [|rewrite IH]; reflexivity. Qed.

Lemma all_space_rev s : all_space s = true -> all_space (string_rev s) = true.
Proof.
  rewrite !all_space_forallb. unfold string_rev.
  rewrite list_ascii_of_string_of_list_ascii, !forallb_forall.
  intros H x Hx. apply H. apply in_rev. exact Hx.
Qed.

Lemma lstrip_ws_nil s : lstrip_ws s = EmptyString <-> all_space s = true.
Proof.
  induction s as [|c s IH]; simpl; [split; reflexivity|].
  destruct (is_space c); simpl; [exact IH | split; discriminate].
Qed.

Lemma py_strip_app_space a w :
  all_space w = true -> py_strip (a ++ w) = py_strip a.
Proof.
  intros Hw. unfold py_strip. rewrite lstrip_ws_app.
  destruct (lstrip_ws a) as [|c r] eqn:Ea.
  - apply lstrip_ws_nil in Hw. rewrite Hw. reflexivity.
  - rewrite string_rev_app, lstrip_ws_app.
    apply all_space_rev, lstrip_ws_nil in Hw. rewrite Hw. reflexivity.
Qed.

Lemma rtrim_ws_split v : exists w, all_space w = true /\ v = (rtrim_ws v ++ w)%string.
Proof.
  induction v as [|c v IH]; [exists EmptyString; split; reflexivity|].
  cbn [rtrim_ws]. destruct (all_space (String c v)) eqn:E.
  - exists (String c v). split; [exact E | reflexivity].
  - destruct IH as [w [Hw Hv]]. exists w. split; [exact Hw|].
    simpl. f_equal. exact Hv.
Qed.

Lemma lstrip_ws_head_in s y r ch :
  lstrip_ws s = String y r -> no_char ch s = true -> y <> ch.
Proof.
  induction s as [|c s IH]; simpl; [discriminate|].
  intros Hl Hn. apply andb_prop in Hn as [Hc Hn].
  destruct (is_space c); [exact (IH Hl Hn)|].
  injection Hl as <- _. intros ->. rewrite Ascii.eqb_refl in Hc. discriminate.
Qed.

Lemma dotstar_end_no_nl c : no_char nl c = true -> dotstar_end c = Some EmptyString.
Proof.
  induction c as [|x c IH]; [reflexivity|].
  cbn [no_char dotstar_end].
  intros H. apply andb_prop in H as [Hx H]. apply negb_true_iff in Hx.
  rewrite Ascii.eqb_sym, Hx. exact (IH H).
Qed.

Lemma strip_comment_trail v ws c :
  no_char "!" v = true -> all_space ws = true -> ws <> EmptyString ->
  no_char nl c = true ->
  strip_comment (v ++ ws ++ "!" ++ c) = rtrim_ws v.
Proof.
  intros Hv Hws Hne Hc. change ("!" ++ c)%string with (String "!" c).
  assert (Ht : lstrip_ws (ws ++ String "!" c) = String "!" c).
  { rewrite lstrip_ws_app. apply lstrip_ws_nil in Hws. rewrite Hws. reflexivity. }
  assert (Hbang : comment_at (ws ++ String "!" c) = Some EmptyString).
  { destruct ws as [|w ws']; [contradiction|].
    assert (Hw : is_space w = true).
    { simpl in Hws. apply andb_prop in Hws as [Hw _]. exact Hw. }
    unfold comment_at. cbn [append]. rewrite Hw.
    change (String w (ws' ++ String "!" c)) with (String w ws' ++ String "!" c)%string.
    rewrite Ht, Ascii.eqb_refl. apply dotstar_end_no_nl. exact Hc. }
  induction v as [|x v IH].
  - destruct ws as [|w ws']; [contradiction|].
    change (EmptyString ++ String w ws' ++ String "!" c)%string
      with (String w (ws' ++ String "!" c)).
    cbn [strip_comment].
    change (String w (ws' ++ String "!" c)) with (String w ws' ++ String "!" c)%string.
    rewrite Hbang. reflexivity.
  - cbn [no_char] in Hv. apply andb_prop in Hv as [Hx Hv].
    change (String x v ++ ws ++ String "!" c)%string
      with (String x (v ++ ws ++ String "!" c)).
    cbn [strip_comment rtrim_ws].
    destruct (is_space x) eqn:Esx.
    + assert (Eca : comment_at (String x (v ++ ws ++ String "!" c)) =
                    match lstrip_ws (v ++ ws ++ String "!" c) with
                    | String b r => if Ascii.eqb b "!" then dotstar_end r else None
                    | EmptyString => None
                    end).
      { unfold comment_at. rewrite Esx. cbn [lstrip_ws]. rewrite Esx. reflexivity. }
      rewrite Eca, lstrip_ws_app.
      destruct (lstrip_ws v) as [|y r] eqn:Ev.
      * rewrite Ht, Ascii.eqb_refl, (dotstar_end_no_nl c Hc).
        apply lstrip_ws_nil in Ev. cbn [all_space]. rewrite Esx, Ev. reflexivity.
      * pose proof (lstrip_ws_head_in v y r "!" Ev Hv) as Hy.
        cbn [append]. destruct (Ascii.eqb_spec y "!") as [Hy'|_]; [contradiction|].
        rewrite (IH Hv).
        assert (Hav : all_space v = false).
        { destruct (all_space v) eqn:Eav; [|reflexivity].
          apply lstrip_ws_nil in Eav. rewrite Eav in Ev. discriminate. }
        cbn [all_space]. rewrite Esx, Hav. reflexivity.
    + assert (Eca : comment_at (String x (v ++ ws ++ String "!" c)) = None).
      { unfold comment_at. rewrite Esx. reflexivity. }
      rewrite Eca, (IH Hv). cbn [all_space]. rewrite Esx. reflexivity.
Qed.

(** A value followed by whitespace, [!] and a comment is stored as the
    value trimmed of whitespace: [re.sub(r"\s+!.*$", "", value).strip()]
    drops the whole comment (the value itself has no [!], the comment no
    newline). *)
Theorem clean_value_drops_comment (v ws c : string)
  (Hv : no_char "!" v = true) (Hws : all_space ws = true) (Hne : ws <> EmptyString)
  (Hc : no_char nl c = true) :
  clean_value (v ++ ws ++ "!" ++ c) = py_strip v.
Proof.
  unfold clean_value. rewrite (strip_comment_trail v ws c Hv Hws Hne Hc).
  destruct (rtrim_ws_split v) as [w [Hw Ev]].
  rewrite Ev at 2. symmetry. apply py_strip_app_space. exact Hw.
Qed.

Lemma clean_value_drops_comment_witness :
  clean_value "GO:0000001  ! cell growth" = "GO:0000001".
Proof.
  exact (clean_value_drops_comment "GO:0000001" "  " " cell growth"
           eq_refl eq_refl ltac:(discriminate) eq_refl).
Defined.

(* ------------------------------------------------------------------ *)
(** ** More on [parse_synonym_tag] *)

Lemma syn_label_app label w r :
  no_char dq label = true -> no_char nl label = true -> is_space w = true ->
  syn_label (label ++ String dq (String w r)) = Some (label, String w r).
Proof.
  intros Hdq Hnl Hw. induction label as [|x label IH].
  - cbn [append syn_label]. rewrite Ascii.eqb_refl, Hw. reflexivity.
  - cbn [no_char] in Hdq, Hnl.
    apply andb_prop in Hdq as [Hx Hdq]. apply andb_prop in Hnl as [Hx' Hnl].
    apply negb_true_iff in Hx, Hx'. rewrite Ascii.eqb_sym in Hx, Hx'.
    cbn [append syn_label]. rewrite Hx, Hx'. cbn [andb].
    change (label ++ String dq (String w r))%string with (label ++ String dq (String w r))%string.
    rewrite (IH Hdq Hnl). reflexivity.
Qed.

Lemma prefix_app p t : String.prefix p (p ++ t) = true.
Proof.
  induction p as [|a p IH]; [destruct t; reflexivity|].
  simpl. destruct (ascii_dec a a) as [_|n]; [exact IH | contradiction].
Qed.

Lemma syn_scope_app sc tail :
  In sc scope_alternatives -> syn_scope (sc ++ tail) = Some sc.
Proof.
  intros H. unfold syn_scope. pose proof (prefix_app sc tail) as Hp.
  simpl in H. repeat destruct H as [<-|H]; try contradiction;
    cbn [find scope_alternatives]; rewrite Hp; reflexivity.
Qed.

Lemma parse_synonym_tag_quoted label rest w :
  no_char dq label = true -> no_char nl label = true -> is_space w = true ->
  parse_synonym_tag (chr dq ++ label ++ chr dq ++ String w rest) =
  (label, match syn_scope (lstrip_ws (String w rest)) with Some sc => sc | None => "EXACT" end,
   0%Z).
Proof.
  intros Hdq Hnl Hw.
  change (chr dq ++ label ++ chr dq ++ String w rest)%string
    with (String dq (label ++ String dq (String w rest))).
  unfold parse_synonym_tag. rewrite Ascii.eqb_refl, (syn_label_app label w rest Hdq Hnl Hw).
  reflexivity.
Qed.

(** [parse_synonym_tag] on its input forms: a value that does not open
    with a double quote is returned whole with scope EXACT; a quoted label
    (no quote or newline inside) followed by a space and one of the scope
    tokens gives that label and that token, whatever follows; followed by
    a space and a bracket it gives scope EXACT. *)
Theorem parse_synonym_tag_forms :
  (forall raw, String.prefix (chr dq) raw = false ->
     parse_synonym_tag raw = (raw, "EXACT", 0%Z)) /\
  (forall label sc tail,
     no_char dq label = true -> no_char nl label = true -> In sc scope_alternatives ->
     parse_synonym_tag (chr dq ++ label ++ chr dq ++ " " ++ sc ++ tail) = (label, sc, 0%Z)) /\
  (forall label xref,
     no_char dq label = true -> no_char nl label = true ->
     parse_synonym_tag (chr dq ++ label ++ chr dq ++ " [" ++ xref) = (label, "EXACT", 0%Z)).
Proof.
  split; [|split].
  - intros [|c s] H; [reflexivity|]. unfold parse_synonym_tag.
    destruct (Ascii.eqb_spec c dq) as [->|_]; [|reflexivity].
    assert (Hp : String.prefix (chr dq) (String dq s) = true) by (destruct s; reflexivity).
    rewrite Hp in H. discriminate.
  - intros label sc tail Hdq Hnl Hsc.
    change (" " ++ sc ++ tail)%string with (String " " (sc ++ tail)).
    rewrite (parse_synonym_tag_quoted label (sc ++ tail) " " Hdq Hnl eq_refl).
    change (lstrip_ws (String " " (sc ++ tail))) with (lstrip_ws (sc ++ tail)).
    assert (Hl : lstrip_ws (sc ++ tail) = (sc ++ tail)%string).
    { simpl in Hsc. repeat destruct Hsc as [<-|Hsc]; try contradiction; reflexivity. }
    rewrite Hl, (syn_scope_app sc tail Hsc). reflexivity.
  - intros label xref Hdq Hnl.
    change (" [" ++ xref)%string with (String " " ("[" ++ xref)).
    rewrite (parse_synonym_tag_quoted label ("[" ++ xref) " " Hdq Hnl eq_refl).
    reflexivity.
Qed.


(* ------------------------------------------------------------------ *)
(** ** The [IndexError] of [build] *)

Lemma split_aux_nil s cur :
  split_aux s cur = [] <-> cur = EmptyString /\ all_space s = true.
Proof.
  revert cur. induction s as [|c s IH]; intros cur; cbn [split_aux all_space].
  - destruct cur; split; try (intros [H _]; discriminate); try discriminate; auto.
  - destruct (is_space c); cbn [andb].
    + destruct cur as [|x cur].
      * rewrite IH. tauto.
      * split; [discriminate | intros [H _]; discriminate].
    + rewrite IH. split; [intros [H _]; discriminate | intros [_ H]; discriminate].
Qed.

(** [raw.split()] is empty exactly when [raw] is all whitespace. *)
Lemma py_split_nil s : py_split s = [] <-> all_space s = true.
Proof. unfold py_split. rewrite split_aux_nil. tauto. Qed.

Lemma fold_result_err {A B} (f : A -> B -> result A) (Q : B -> Prop) (e : exn) l :
  (forall a b, f a b = Err e <-> Q b) ->
  forall a, fold_result f l a = Err e <-> Exists Q l.
Proof.
  intros Hf. induction l as [|b l IH]; intros a; simpl.
  - split; [discriminate | intros H; inversion H].
  - rewrite Exists_cons. destruct (f a b) as [a'|e'] eqn:E.
    + rewrite IH. split; [tauto|]. intros [Hq|Hq]; [|exact Hq].
      apply (proj2 (Hf a b)) in Hq. rewrite E in Hq. discriminate.
    + split; [intros H; left; apply (proj1 (Hf a b)); rewrite E; exact H|].
      intros _. destruct e, e'. reflexivity.
Qed.

Lemma collect_term_err active ps t :
  collect_term active ps t = Err IndexError <->
  ns_of_short (short_of (get_str t "namespace" "")) <> None /\
  Exists (fun raw => all_space raw = true) (get_list t "is_a").
Proof.
  unfold collect_term. destruct (ns_of_short _) as [n|].
  - assert (Hq : forall a raw, is_a_entry active n (get_str t "id" "") a raw = Err IndexError
                               <-> all_space raw = true).
    { intros a raw. unfold is_a_entry. rewrite <- py_split_nil.
      destruct (py_split raw); split; congruence. }
    rewrite <- (fold_result_err _ _ _ _ Hq ps).
    destruct (fold_result _ _ ps) as [ps1|[]].
    + split; [discriminate | intros [_ H]; discriminate].
    + split; [intros _; split; [discriminate | reflexivity] | reflexivity].
  - split; [discriminate | intros [H _]; contradiction].
Qed.

(** [build] raises [IndexError] (from [raw.split()[0]]) exactly when an
    active term of one of the three namespaces has an [is_a] value that is
    empty or all whitespace; otherwise the parent tables are built. *)
Theorem collect_edges_index_error (terms : list stanza) :
  collect_edges terms = Err IndexError <->
  exists t raw, In t terms /\
    ns_of_short (short_of (get_str t "namespace" "")) <> None /\
    In raw (get_list t "is_a") /\ all_space raw = true.
Proof.
  unfold collect_edges.
  rewrite (fold_result_err _ _ _ _ (collect_term_err (active_ids terms))), Exists_exists.
  split.
  - intros [t [Ht [Hn Hr]]]. apply Exists_exists in Hr. destruct Hr as [raw [Hraw Hs]].
    exists t, raw. tauto.
  - intros [t [raw [Ht [Hn [Hraw Hs]]]]]. exists t. split; [exact Ht|]. split; [exact Hn|].
    apply Exists_exists. exists raw. tauto.
Qed.

(* ------------------------------------------------------------------ *)
(** ** The parent tables and the offspring tables *)

Lemma fold_result_inv_in {A B} (P : A -> Prop) (f : A -> B -> result A) (l : list B) :
  (forall a b a', In b l -> f a b = Ok a' -> P a -> P a') ->
  forall a a', fold_result f l a = Ok a' -> P a -> P a'.
Proof.
  induction l as [|b l IH]; simpl; intros Hf a a' H Ha.
  - injection H as <-. exact Ha.
  - destruct (f a b) as [a1|e] eqn:E; [|discriminate].
    refine (IH _ a1 a' H (Hf _ _ _ (or_introl eq_refl) E Ha)).
    intros x y z Hy. apply Hf. right. exact Hy.
Qed.

Lemma fold_left_inv_in {A B} (P : A -> Prop) (f : A -> B -> A) (l : list B) :
  (forall a b, In b l -> P a -> P (f a b)) -> forall a, P a -> P (fold_left f l a).
Proof.
  induction l as [|b l IH]; simpl; intros Hf a Ha; [exact Ha|].
  apply IH; [intros x y Hy; apply Hf; right; exact Hy|].
  apply Hf; [left; reflexivity | exact Ha].
Qed.

Lemma fold_result_mid {A B} (R : A -> A -> Prop) (f : A -> B -> result A) (l : list B) :
  (forall a, R a a) -> (forall x y z, R x y -> R y z -> R x z) ->
  (forall a b a', f a b = Ok a' -> R a a') ->
  forall a r, fold_result f l a = Ok r ->
  R a r /\ forall b, In b l -> exists a1 a2, f a1 b = Ok a2 /\ R a2 r.
Proof.
  intros Hrefl Htrans Hf. induction l as [|b l IH]; simpl; intros a r H.
  - injection H as <-. split; [apply Hrefl | intros b []].
  - destruct (f a b) as [a1|e] eqn:E; [|discriminate].
    destruct (IH a1 r H) as [Hr Hmid]. split; [exact (Htrans _ _ _ (Hf _ _ _ E) Hr)|].
    intros b' [<-|Hb]; [exists a, a1; split; [exact E | exact Hr] | exact (Hmid b' Hb)].
Qed.

Lemma fold_left_mid {A B} (R : A -> A -> Prop) (f : A -> B -> A) (l : list B) :
  (forall a, R a a) -> (forall x y z, R x y -> R y z -> R x z) ->
  (forall a b, R a (f a b)) ->
  forall a, R a (fold_left f l a) /\
    forall b, In b l -> exists a1, R (f a1 b) (fold_left f l a).
Proof.
  intros Hrefl Htrans Hf. induction l as [|b l IH]; simpl; intros a.
  - split; [apply Hrefl | intros b []].
  - destruct (IH (f a b)) as [Hr Hmid]. split; [exact (Htrans _ _ _ (Hf a b) Hr)|].
    intros b' [<-|Hb]; [exists a; exact Hr | exact (Hmid b' Hb)].
Qed.

Lemma add_edge_rows ps n c p r m x :
  In x (parent_rows (get_part (add_edge ps n c p r) m)) <->
  In x (parent_rows (get_part ps m)) \/ (m = n /\ x = (c, p, r)).
Proof.
  unfold add_edge.
  destruct n, m; simpl; rewrite ?in_app_iff; simpl;
    intuition (subst; auto; discriminate).
Qed.

Lemma dd_append_edge k v m p c :
  (exists l, In (p, l) (dd_append k v m) /\ In c l) <->
  (p = k /\ c = v) \/ exists l, In (p, l) m /\ In c l.
Proof.
  induction m as [|[k0 l0] m IH]; simpl.
  - split.
    + intros [l [[H|[]] Hc]]. injection H as <- <-. destruct Hc as [<-|[]]. left; auto.
    + intros [[-> ->]|[l [[] _]]]. exists [v]. split; [left; reflexivity | left; reflexivity].
  - destruct (String.eqb_spec k k0) as [<-|Hne].
    + split.
      * intros [l [[H|H] Hc]].
        -- injection H as <- <-. apply in_app_or in Hc. destruct Hc as [Hc|[<-|[]]].
           ++ right. exists l0. split; [left; reflexivity | exact Hc].
           ++ left; auto.
        -- right. exists l. split; [right; exact H | exact Hc].
      * intros [[-> ->]|[l [[H|H] Hc]]].
        -- exists (l0 ++ [v]). split; [left; reflexivity|]. apply in_or_app. right. left. reflexivity.
        -- injection H as <- <-. exists (l0 ++ [v]). split; [left; reflexivity|].
           apply in_or_app. left. exact Hc.
        -- exists l. split; [right; exact H | exact Hc].
    + split.
      * intros [l [[H|H] Hc]].
        -- injection H as <- <-. right. exists l0. split; [left; reflexivity | exact Hc].
        -- destruct (proj1 IH (ex_intro _ l (conj H Hc))) as [Hk|[l' [Hl' Hc']]].
           ++ left. exact Hk.
           ++ right. exists l'. split; [right; exact Hl' | exact Hc'].
      * intros [Hk|[l [[H|H] Hc]]].
        -- destruct (proj2 IH (or_introl Hk)) as [l [Hl Hc]].
           exists l. split; [right; exact Hl | exact Hc].
        -- injection H as <- <-. exists l0. split; [left; reflexivity | exact Hc].
        -- destruct (proj2 IH (or_intror (ex_intro _ l (conj H Hc)))) as [l' [Hl' Hc']].
           exists l'. split; [right; exact Hl' | exact Hc'].
Qed.

Lemma add_edge_dc ps n c p r m x y :
  dc_edge (add_edge ps n c p r) m x y <->
  dc_edge ps m x y \/ (m = n /\ x = p /\ y = c).
Proof.
  unfold dc_edge, add_edge.
  destruct n, m; simpl; rewrite ?dd_append_edge; intuition (subst; auto; discriminate).
Qed.

(** [direct_children] lists [c] under [p] exactly when [parent_rows] has a
    row [(c, p, _)]. *)
Lemma add_edge_consistent ps n c p r :
  dc_consistent ps -> dc_consistent (add_edge ps n c p r).
Proof.
  intros Hc m x y. rewrite add_edge_dc, (Hc m x y). split.
  - intros [[r' Hr']|[-> [-> ->]]].
    + exists r'. apply add_edge_rows. left. exact Hr'.
    + exists r. apply add_edge_rows. right. split; reflexivity.
  - intros [r' Hr']. apply add_edge_rows in Hr'. destruct Hr' as [Hr'|[-> Hx]].
    + left. exists r'. exact Hr'.
    + injection Hx as -> -> ->. right. split; [reflexivity|]. split; reflexivity.
Qed.

Lemma collect_edges_consistent terms ps :
  collect_edges terms = Ok ps -> dc_consistent ps.
Proof.
  unfold collect_edges. intros H.
  refine (fold_result_inv _ _ _ _ _ _ H _).
  - intros a t a' Ht Ha. unfold collect_term in Ht.
    destruct (ns_of_short _) as [n|]; [|injection Ht as <-; exact Ha].
    destruct (fold_result _ _ a) as [a1|e] eqn:E; [|discriminate]. injection Ht as <-.
    apply fold_left_inv.
    + intros b raw Hb. unfold rel_entry.
      destruct (py_split raw) as [|x [|y z]]; try exact Hb.
      destruct (mem y _); [apply add_edge_consistent|]; exact Hb.
    + refine (fold_result_inv _ _ _ _ _ _ E Ha).
      intros b raw b' Hs Hb. unfold is_a_entry in Hs.
      destruct (py_split raw) as [|x z]; [discriminate|]. injection Hs as <-.
      destruct (mem x _); [apply add_edge_consistent|]; exact Hb.
  - intros n p c. split.
    + intros [l [Hl _]]. destruct n; destruct Hl.
    + intros [r Hr]. destruct n; destruct Hr.
Qed.

Lemma clos_trans_iff {A} (R1 R2 : A -> A -> Prop) :
  (forall x y, R1 x y <-> R2 x y) -> forall x y, clos_trans _ R1 x y <-> clos_trans _ R2 x y.
Proof.
  intros H x y. split; induction 1 as [x y Hxy|x y z _ IH1 _ IH2].
  - apply t_step. apply H. exact Hxy.
  - eapply t_trans; eauto.
  - apply t_step. apply H. exact Hxy.
  - eapply t_trans; eauto.
Qed.

(** In each partition the offspring pairs [transitive_closure] returns
    for [direct_children] are exactly the pairs [(A, T)] joined by a chain
    of one or more rows of [parent_rows] going up from [T] to [A]. *)
Theorem offspring_closure_of_parent_rows (terms : list stanza) (ps : parts)
  (ord : list string -> list string)
  (H : collect_edges terms = Ok ps) (Hord : ord_spec ord) (n : ns) (a t : string) :
  In (a, t) (transitive_closure ord (direct_children (get_part ps n))) <->
  clos_trans _ (fun p c => exists r, In (c, p, r) (parent_rows (get_part ps n))) a t.
Proof.
  rewrite (proj2 (transitive_closure_reach ord _ Hord)). unfold reach.
  apply clos_trans_iff. intros p c.
  exact (collect_edges_consistent terms ps H n p c).
Qed.

Lemma ord_spec_id : ord_spec (fun l => l).
Proof. intros l _. apply Permutation_refl. Qed.

Lemma offspring_closure_of_parent_rows_witness :
  exists ps, collect_edges sample_terms = Ok ps /\
    clos_trans _ (fun p c => exists r, In (c, p, r) (parent_rows (get_part ps BP)))
      "GO:0000001" "GO:0000003".
Proof.
  eexists. split; [reflexivity|].
  apply (offspring_closure_of_parent_rows sample_terms _ (fun l => l) eq_refl ord_spec_id).
  vm_compute. right. left. reflexivity.
Defined.

Lemma rows_sub_refl ps : rows_sub ps ps.
Proof. intros n x H. exact H. Qed.

Lemma rows_sub_trans x y z : rows_sub x y -> rows_sub y z -> rows_sub x z.
Proof. intros H1 H2 n r H. apply H2, H1, H. Qed.

Lemma add_edge_rows_sub ps n c p r : rows_sub ps (add_edge ps n c p r).
Proof. intros m x H. apply add_edge_rows. left. exact H. Qed.

Lemma is_a_entry_sub active n go_id ps raw ps' :
  is_a_entry active n go_id ps raw = Ok ps' -> rows_sub ps ps'.
Proof.
  unfold is_a_entry. destruct (py_split raw) as [|x z]; [discriminate|].
  intros H. injection H as <-. destruct (mem x active); [apply add_edge_rows_sub | apply rows_sub_refl].
Qed.

Lemma rel_entry_sub active n go_id ps raw : rows_sub ps (rel_entry active n go_id ps raw).
Proof.
  unfold rel_entry. destruct (py_split raw) as [|x [|y z]]; try apply rows_sub_refl.
  destruct (mem y active); [apply add_edge_rows_sub | apply rows_sub_refl].
Qed.

Lemma collect_term_sub active ps t ps' : collect_term active ps t = Ok ps' -> rows_sub ps ps'.
Proof.
  unfold collect_term. destruct (ns_of_short _) as [n|]; [|intros H; injection H as <-; apply rows_sub_refl].
  destruct (fold_result _ _ ps) as [ps1|e] eqn:E; [|discriminate]. intros H. injection H as <-.
  apply (rows_sub_trans _ ps1).
  - exact (proj1 (fold_result_mid rows_sub _ _ rows_sub_refl rows_sub_trans
                   (is_a_entry_sub active n _) _ _ E)).
  - exact (proj1 (fold_left_mid rows_sub _ (get_list t "relationship") rows_sub_refl rows_sub_trans
                   (rel_entry_sub active n _) ps1)).
Qed.

Lemma collect_edges_rows_sound terms ps :
  collect_edges terms = Ok ps ->
  forall n c p r, In (c, p, r) (parent_rows (get_part ps n)) -> row_source terms n c p r.
Proof.
  unfold collect_edges. intros H.
  refine (fold_result_inv_in
            (fun a => forall n c p r, In (c, p, r) (parent_rows (get_part a n)) ->
                                      row_source terms n c p r) _ _ _ _ _ H _).
  - intros a t a' Ht Ea Ha. unfold collect_term in Ea.
    destruct (ns_of_short _) as [n0|] eqn:Hns; [|injection Ea as <-; exact Ha].
    destruct (fold_result _ _ a) as [a1|e] eqn:E; [|discriminate]. injection Ea as <-.
    apply (fold_left_inv_in
             (fun a => forall n c p r, In (c, p, r) (parent_rows (get_part a n)) ->
                                       row_source terms n c p r)).
    + intros b raw Hraw Hb m c p r Hin. unfold rel_entry in Hin.
      destruct (py_split raw) as [|x [|y z]] eqn:Hs; try exact (Hb _ _ _ _ Hin).
      destruct (mem y (active_ids terms)) eqn:Hm; [|exact (Hb _ _ _ _ Hin)].
      apply add_edge_rows in Hin. destruct Hin as [Hin|[-> Hx]]; [exact (Hb _ _ _ _ Hin)|].
      injection Hx as E1 E2 E3. subst. exists t. split; [exact Ht|]. split; [reflexivity|].
      split; [exact Hns|]. split; [apply mem_In; exact Hm|].
      right. exists raw, z. split; [exact Hraw | exact Hs].
    + refine (fold_result_inv_in
                (fun a => forall n c p r, In (c, p, r) (parent_rows (get_part a n)) ->
                                          row_source terms n c p r) _ _ _ _ _ E Ha).
      intros b raw b' Hraw Eb Hb m c p r Hin. unfold is_a_entry in Eb.
      destruct (py_split raw) as [|x z] eqn:Hs; [discriminate|]. injection Eb as <-.
      destruct (mem x (active_ids terms)) eqn:Hm; [|exact (Hb _ _ _ _ Hin)].
      apply add_edge_rows in Hin. destruct Hin as [Hin|[-> Hx]]; [exact (Hb _ _ _ _ Hin)|].
      injection Hx as E1 E2 E3. subst. exists t. split; [exact Ht|]. split; [reflexivity|].
      split; [exact Hns|]. split; [apply mem_In; exact Hm|].
      left. split; [reflexivity|]. exists raw, z. split; [exact Hraw | exact Hs].
  - intros n c p r Hin. destruct n; destruct Hin.
Qed.

(** The rows of [parent_rows] of each partition are exactly the edges
    read off the active terms of that namespace: [(c, p, is_a)] for an
    [is_a] value whose first token is [p], and [(c, p, r)] for a
    [relationship] value whose first two tokens are [r p], in both cases
    only when [p] is an active identifier. *)
Theorem parent_rows_exact (terms : list stanza) (ps : parts)
  (H : collect_edges terms = Ok ps) (n : ns) (c p r : string) :
  In (c, p, r) (parent_rows (get_part ps n)) <-> row_source terms n c p r.
Proof.
  split; [apply (collect_edges_rows_sound terms ps H)|].
  intros [t [Ht [Hid [Hns [Hp Hsrc]]]]].
  apply (proj2 (mem_In _ _)) in Hp.
  destruct (fold_result_mid rows_sub _ _ rows_sub_refl rows_sub_trans
              (collect_term_sub (active_ids terms)) _ _ H) as [_ Hmid].
  destruct (Hmid t Ht) as [a1 [a2 [Ea Hsub]]]. apply Hsub.
  unfold collect_term in Ea. rewrite Hns in Ea.
  destruct (fold_result _ _ a1) as [ps1|e] eqn:E1; [|discriminate]. injection Ea as <-.
  destruct (fold_left_mid rows_sub (rel_entry (active_ids terms) n (get_str t "id" ""))
              (get_list t "relationship") rows_sub_refl rows_sub_trans
              (rel_entry_sub (active_ids terms) n _) ps1) as [Hfl Hmidl].
  destruct Hsrc as [[-> [raw [rest [Hraw Hs]]]]|[raw [rest [Hraw Hs]]]].
  - apply Hfl.
    destruct (fold_result_mid rows_sub _ _ rows_sub_refl rows_sub_trans
                (is_a_entry_sub (active_ids terms) n _) _ _ E1) as [_ Hm2].
    destruct (Hm2 raw Hraw) as [b1 [b2 [Eb Hsb]]]. apply Hsb.
    unfold is_a_entry in Eb. rewrite Hs, Hp in Eb. injection Eb as <-.
    apply add_edge_rows. right. subst c. split; reflexivity.
  - destruct (Hmidl raw Hraw) as [b1 Hsb]. apply Hsb.
    unfold rel_entry. rewrite Hs, Hp.
    apply add_edge_rows. right. subst c. split; reflexivity.
Qed.

Lemma parent_rows_exact_witness :
  exists ps, collect_edges sample_terms = Ok ps /\
    row_source sample_terms BP "GO:0000003" "GO:0000002" "part_of" /\
    ~ row_source sample_terms BP "GO:0000003" "GO:0000009" "part_of".
Proof.
  eexists. split; [reflexivity|]. split.
  - apply (parent_rows_exact sample_terms _ eq_refl). vm_compute. right. left. reflexivity.
  - rewrite <- (parent_rows_exact sample_terms _ eq_refl).
    vm_compute. intros [H|[H|[]]]; discriminate.
Defined.

